(** * NeoOtto chat widget: suggestion parser, stream accumulator, UI controller

    A shallow embedding of [src/index.tsx].  JavaScript strings are sequences
    of UTF-16 code units; they are modelled as lists of [N].  The two regular
    expressions of the source are embedded as the backtracking searches they
    denote, one function per regex construct. *)

From Stdlib Require Import Ascii String.
From Stdlib Require Import List NArith Bool Arith Lia.
From Equations Require Import Equations.
Import ListNotations.

Local Open Scope N_scope.

(** ** JavaScript strings *)

Module JS.

(** A string value: its UTF-16 code units, in order. *)
Definition str := list N.

(** An ASCII literal as a JavaScript string. *)
Definition lit (s : string) : str :=
  map N_of_ascii (list_ascii_of_string s).

Definition LF : N := 10.
Definition CR : N := 13.
Definition LS : N := 8232.
Definition PS : N := 8233.
Definition DQUOTE : N := 34.

(** Code units stripped by [String.prototype.trim]: ECMAScript WhiteSpace
    (TAB, VT, FF, SP, NBSP, ZWNBSP and the Unicode space separators) and
    LineTerminator (LF, CR, LS, PS). *)
Definition is_ws (c : N) : bool :=
  existsb (N.eqb c)
    [9; 10; 11; 12; 13; 32; 160; 5760; 8232; 8233; 8239; 8287; 12288; 65279]
  || ((8192 <=? c) && (c <=? 8202)).

(** Code units the regex atom [.] refuses (no [s] flag in the source). *)
Definition is_line_terminator (c : N) : bool :=
  existsb (N.eqb c) [LF; CR; LS; PS].

Fixpoint trimStart (s : str) : str :=
  match s with
  | c :: s' => if is_ws c then trimStart s' else s
  | [] => []
  end.

Definition trimEnd (s : str) : str := rev (trimStart (rev s)).

(** [s.trim()] *)
Definition trim (s : str) : str := trimEnd (trimStart s).

(** [s.split('\n')]: the empty string splits into one empty piece. *)
Fixpoint split_lf (s : str) : list str :=
  match s with
  | [] => [[]]
  | c :: s' =>
      if c =? LF then [] :: split_lf s'
      else match split_lf s' with
           | l :: ls => (c :: l) :: ls
           | [] => [[c]]
           end
  end.

(** Matching a literal at the head of the subject: the rest on success. *)
Fixpoint strip_prefix (p s : str) : option str :=
  match p, s with
  | [], _ => Some s
  | a :: p', b :: s' => if a =? b then strip_prefix p' s' else None
  | _ :: _, [] => None
  end.

(** The lazy quantifier [[\s\S]*?] followed by the literal [p]: the
    continuation is tried first, and only when it fails is one more code
    unit (any code unit) consumed.  Returns what the quantifier consumed
    and what follows the literal. *)
Fixpoint lazy_any_until (p s : str) : option (str * str) :=
  match strip_prefix p s with
  | Some rest => Some ([], rest)
  | None =>
      match s with
      | [] => None
      | c :: s' =>
          match lazy_any_until p s' with
          | Some (cap, rest) => Some (c :: cap, rest)
          | None => None
          end
      end
  end.

(** [s.includes(p)] *)
Fixpoint includes (p s : str) : bool :=
  match strip_prefix p s with
  | Some _ => true
  | None => match s with [] => false | _ :: s' => includes p s' end
  end.

Definition is_empty (s : str) : bool :=
  match s with [] => true | _ :: _ => false end.

End JS.

Import JS.

(** ** The suggestion markup *)

Definition START_MARKER : str := lit "[SUGGESTIONS]".
Definition END_MARKER : str := lit "[/SUGGESTIONS]".

(** *** [/\[SUGGESTIONS\]([\s\S]*?)\[\/SUGGESTIONS\]/] *)

(** The pattern anchored at the head of the subject: capture group 1 and the
    text after the match. *)
Definition block_at (s : str) : option (str * str) :=
  match strip_prefix START_MARKER s with
  | Some r => lazy_any_until END_MARKER r
  | None => None
  end.

(** The unanchored search: start indices are tried left to right.  Returns
    the text before the match, capture group 1, and the text after the
    match. *)
Fixpoint exec_block (s : str) : option (str * str * str) :=
  match block_at s with
  | Some (cap, rest) => Some ([], cap, rest)
  | None =>
      match s with
      | [] => None
      | c :: s' =>
          match exec_block s' with
          | Some (pre, cap, rest) => Some (c :: pre, cap, rest)
          | None => None
          end
      end
  end.

(** *** [/"(.*?)"/] *)

(** After the opening quote: [.*?] followed by the closing quote.  The lazy
    quantifier tries the closing quote first and otherwise consumes one code
    unit that is not a line terminator. *)
Fixpoint lazy_dot_until_quote (s : str) : option str :=
  match s with
  | [] => None
  | c :: s' =>
      if c =? DQUOTE then Some []
      else if is_line_terminator c then None
      else match lazy_dot_until_quote s' with
           | Some cap => Some (c :: cap)
           | None => None
           end
  end.

Definition quoted_at (s : str) : option str :=
  match s with
  | c :: s' => if c =? DQUOTE then lazy_dot_until_quote s' else None
  | [] => None
  end.

(** [s.match(/"(.*?)"/)]: [None] is JavaScript's [null], [Some c] a match
    array whose element 1 is [c]. *)
Fixpoint exec_quoted (s : str) : option str :=
  match quoted_at s with
  | Some cap => Some cap
  | None => match s with [] => None | _ :: s' => exec_quoted s' end
  end.

(** *** [replace(/\[SUGGESTIONS\][\s\S]*?\[\/SUGGESTIONS\]/g, '')] *)

Definition inspect {A} (a : A) : {b : A | a = b} := exist _ a eq_refl.

(** Every match is removed, scanning left to right; the search resumes after
    the end of the previous match and the removed text is never rescanned.
    A match is at least 27 code units long, so the rest is shorter. *)
Equations? replace_blocks (s : str) : str by wf (length s) lt :=
  replace_blocks s with inspect (exec_block s) := {
    | exist _ (Some (pre, _, rest)) _ => pre ++ replace_blocks rest
    | exist _ None _ => s }.
Proof.
  clear replace_blocks.
  assert (P1 : forall p t r, strip_prefix p t = Some r ->
                             (length t = length p + length r)%nat).
  { induction p as [|a p IH]; intros [|b t] r H; simpl in *;
      try discriminate; try (injection H as <-; reflexivity).
    destruct (a =? b); [|discriminate]. apply IH in H. lia. }
  assert (P2 : forall p t cap r, lazy_any_until p t = Some (cap, r) ->
                                 (length r <= length t)%nat).
  { intros p t; induction t as [|c t IH]; intros cap r H; simpl in H.
    - destruct (strip_prefix p []) eqn:E; [|discriminate].
      injection H as <- <-. apply P1 in E. simpl in *. lia.
    - destruct (strip_prefix p (c :: t)) eqn:E.
      + injection H as <- <-. apply P1 in E. simpl in *. lia.
      + destruct (lazy_any_until p t) as [[cap' r']|] eqn:E'; [|discriminate].
        injection H as <- <-. specialize (IH _ _ eq_refl). simpl. lia. }
  revert pre e. induction s as [|c s IH]; intros pre H.
  - simpl in H. discriminate.
  - cbn [exec_block] in H.
    destruct (block_at (c :: s)) as [[cap' r']|] eqn:E.
    + injection H as <- <- <-. unfold block_at in E.
      destruct (strip_prefix START_MARKER (c :: s)) eqn:E1; [|discriminate].
      apply P1 in E1. apply P2 in E.
      change (length START_MARKER) with 13%nat in E1. lia.
    + destruct (exec_block s) as [[[pre' cap'] r']|] eqn:E'; [|discriminate].
      injection H as <- <- <-. specialize (IH _ eq_refl). simpl. lia.
Qed.

(** ** Suggestion parser (lines 207-218 of [processAndDisplaySuggestions]) *)

Definition is_some {A} (o : option A) : bool :=
  match o with Some _ => true | None => false end.

(** [.filter(Boolean).map(match => match[1])] on the per-line match results. *)
Definition captures (ms : list (option str)) : list str :=
  map (fun m => match m with Some c => c | None => [] end) (filter is_some ms).

(** The value of [suggestions] computed from capture group 1. *)
Definition block_suggestions (m1 : str) : list str :=
  let suggestionsText := trim m1 in
  captures (map (fun s => exec_quoted (trim s)) (split_lf suggestionsText)).

(** The sequence of suggestions the function goes on to display; the early
    return of line 211 ([!match || !match[1]]) yields none. *)
Definition parseSuggestions (fullResponse : str) : list str :=
  match exec_block fullResponse with
  | None => []
  | Some (_, m1, _) => if is_empty m1 then [] else block_suggestions m1
  end.

(** ** Stream accumulator (lines 266-271) *)

(** [bufferedText += chunk.text] *)
Definition append (bufferedText delta : str) : str := bufferedText ++ delta.

(** [bufferedText.replace(/.../g, '').trim()] *)
Definition displayText (bufferedText : str) : str :=
  trim (replace_blocks bufferedText).

(** ** Chat UI controller *)

Inductive Sender := user | bot.

(** What the content element of a message bubble holds. *)
Inductive Content :=
| Blank
| TextContent (t : str)
| InnerHTML (h : str).

(** Children of [chatContainer].  A message bubble is known by the identity
    of its content element, which [appendMessage] hands to its caller. *)
Inductive Node :=
| MessageNode (el : nat) (sender : Sender) (content : Content)
| SuggestionsNode (chips : list str).

(** Values a [catch] clause can receive: an [Error] instance with its
    [message], or any other thrown value (here with its text). *)
Inductive Thrown :=
| ErrorObject (message : str)
| OtherValue (v : str).

(** The session handle made by [ai.chats.create]. *)
Record Chat := { chat_apiKey : str; chat_model : str; chat_instruction : str }.

(** What the provider does with one [chat.sendMessageStream] call: the text
    of the chunks it delivers, then a normal end or a failure.  A call that
    is rejected before any chunk has no chunks and a failure. *)
Record Remote := { chunks : list str; failure : option Thrown }.

Record App := {
  chat : option Chat;                 (* let chat: Chat | null *)
  chatContainer : list Node;
  nextEl : nat;                       (* identity of the next created element *)
  chatInput_value : str;
  chatInput_defaultValue : str;       (* what chatForm.reset() restores *)
  chatInput_disabled : bool;
  chatInput_placeholder : str;
  chatInput_focused : bool;
  sendButton_disabled : bool;
  sendButton_innerHTML : str;
  sendButtonIcon : str;               (* captured once at load *)
  remoteCalls : list str;             (* messages given to sendMessageStream *)
  console : list Thrown               (* values passed to console.error *)
}.

(** How a function body ends: normally, or by a throw that nothing caught. *)
Inductive Completion :=
| Normal (st : App)
| Throw (e : Thrown) (st : App).

Definition with_chat (c : option Chat) (st : App) : App :=
  {| chat := c; chatContainer := chatContainer st; nextEl := nextEl st;
     chatInput_value := chatInput_value st;
     chatInput_defaultValue := chatInput_defaultValue st;
     chatInput_disabled := chatInput_disabled st;
     chatInput_placeholder := chatInput_placeholder st;
     chatInput_focused := chatInput_focused st;
     sendButton_disabled := sendButton_disabled st;
     sendButton_innerHTML := sendButton_innerHTML st;
     sendButtonIcon := sendButtonIcon st;
     remoteCalls := remoteCalls st; console := console st |}.

Definition with_container (ns : list Node) (n : nat) (st : App) : App :=
  {| chat := chat st; chatContainer := ns; nextEl := n;
     chatInput_value := chatInput_value st;
     chatInput_defaultValue := chatInput_defaultValue st;
     chatInput_disabled := chatInput_disabled st;
     chatInput_placeholder := chatInput_placeholder st;
     chatInput_focused := chatInput_focused st;
     sendButton_disabled := sendButton_disabled st;
     sendButton_innerHTML := sendButton_innerHTML st;
     sendButtonIcon := sendButtonIcon st;
     remoteCalls := remoteCalls st; console := console st |}.

Definition with_input (v : str) (dis : bool) (ph : str) (foc : bool)
    (st : App) : App :=
  {| chat := chat st; chatContainer := chatContainer st; nextEl := nextEl st;
     chatInput_value := v;
     chatInput_defaultValue := chatInput_defaultValue st;
     chatInput_disabled := dis;
     chatInput_placeholder := ph;
     chatInput_focused := foc;
     sendButton_disabled := sendButton_disabled st;
     sendButton_innerHTML := sendButton_innerHTML st;
     sendButtonIcon := sendButtonIcon st;
     remoteCalls := remoteCalls st; console := console st |}.

Definition with_sendButton (dis : bool) (html : str) (st : App) : App :=
  {| chat := chat st; chatContainer := chatContainer st; nextEl := nextEl st;
     chatInput_value := chatInput_value st;
     chatInput_defaultValue := chatInput_defaultValue st;
     chatInput_disabled := chatInput_disabled st;
     chatInput_placeholder := chatInput_placeholder st;
     chatInput_focused := chatInput_focused st;
     sendButton_disabled := dis;
     sendButton_innerHTML := html;
     sendButtonIcon := sendButtonIcon st;
     remoteCalls := remoteCalls st; console := console st |}.

Definition with_logs (calls : list str) (errs : list Thrown) (st : App) : App :=
  {| chat := chat st; chatContainer := chatContainer st; nextEl := nextEl st;
     chatInput_value := chatInput_value st;
     chatInput_defaultValue := chatInput_defaultValue st;
     chatInput_disabled := chatInput_disabled st;
     chatInput_placeholder := chatInput_placeholder st;
     chatInput_focused := chatInput_focused st;
     sendButton_disabled := sendButton_disabled st;
     sendButton_innerHTML := sendButton_innerHTML st;
     sendButtonIcon := sendButtonIcon st;
     remoteCalls := calls; console := errs |}.

(** [appendMessage(sender)]: a new bubble at the end of the container; the
    content element is returned.  Scrolling is presentation and not kept. *)
Definition appendMessage (sender : Sender) (st : App) : nat * App :=
  (nextEl st,
   with_container (chatContainer st ++ [MessageNode (nextEl st) sender Blank])
                  (S (nextEl st)) st).

(** Assigning [textContent] or [innerHTML] of a content element. *)
Definition update_content (el : nat) (c : Content) (n : Node) : Node :=
  match n with
  | MessageNode el' sd _ => if Nat.eqb el' el then MessageNode el' sd c else n
  | SuggestionsNode _ => n
  end.

Definition set_content (el : nat) (c : Content) (st : App) : App :=
  with_container (map (update_content el c) (chatContainer st)) (nextEl st) st.

Definition is_el (el : nat) (n : Node) : bool :=
  match n with
  | MessageNode el' _ _ => Nat.eqb el' el
  | SuggestionsNode _ => false
  end.

(** What the content element [el] holds, when it is in the container. *)
Definition content_of (el : nat) (st : App) : option Content :=
  match find (is_el el) (chatContainer st) with
  | Some (MessageNode _ _ c) => Some c
  | _ => None
  end.

Definition STRONG_ERROR : str := lit "<strong>Error:</strong> ".

(** [addErrorMessage(message)] *)
Definition addErrorMessage (message : str) (st : App) : App :=
  let (botMessageEl, st1) := appendMessage bot st in
  set_content botMessageEl (InnerHTML (STRONG_ERROR ++ message)) st1.

Definition SPINNER : str :=
  lit "<div class=" ++ [DQUOTE] ++ lit "loading-spinner" ++ [DQUOTE] ++
  lit "></div>".

(** [setLoading(isLoading)] *)
Definition setLoading (isLoading : bool) (st : App) : App :=
  let st1 := with_input (chatInput_value st) isLoading
               (chatInput_placeholder st) (chatInput_focused st) st in
  with_sendButton isLoading
    (if isLoading then SPINNER else sendButtonIcon st1) st1.

(** [document.querySelector('.suggestions-container')] followed by
    [remove()]: the first container in document order goes, if any. *)
Fixpoint remove_first_suggestions (ns : list Node) : list Node :=
  match ns with
  | [] => []
  | SuggestionsNode _ :: ns' => ns'
  | n :: ns' => n :: remove_first_suggestions ns'
  end.

(** [processAndDisplaySuggestions(fullResponse)]: one chip per suggestion, in
    a new container at the end of the chat; nothing when there is none. *)
Definition processAndDisplaySuggestions (fullResponse : str) (st : App) : App :=
  let suggestions := parseSuggestions fullResponse in
  if (length suggestions =? 0)%nat then st
  else with_container (chatContainer st ++ [SuggestionsNode suggestions])
                      (nextEl st) st.

Definition UNKNOWN_ERROR : str := lit "An unknown error occurred.".
Definition RETRY_PREFIX : str :=
  lit "Ocorreu um erro. Por favor, tente novamente.<br><br><code>".
Definition CODE_CLOSE : str := lit "</code>".

(** [error instanceof Error ? error.message : "An unknown error occurred."] *)
Definition errorMessage (error : Thrown) : str :=
  match error with
  | ErrorObject message => message
  | OtherValue _ => UNKNOWN_ERROR
  end.

(** [try { body } catch (error) { handler } finally { finalizer }] *)
Definition try_catch_finally (body : App -> Completion)
    (handler : Thrown -> App -> Completion) (finalizer : App -> App)
    (st : App) : Completion :=
  let after :=
    match body st with
    | Normal st1 => Normal st1
    | Throw e st1 => handler e st1
    end in
  match after with
  | Normal st2 => Normal (finalizer st2)
  | Throw e st2 => Throw e (finalizer st2)
  end.

Definition CONFIG_ERROR_HTML : str :=
  lit "<strong>Erro de Configura" ++ [231; 227] ++
  lit "o:</strong> A chave da API (API_KEY) n" ++ [227] ++
  lit "o foi encontrada. Esta aplica" ++ [231; 227] ++
  lit "o requer que a chave seja configurada no ambiente de hospedagem. Sem ela, o assistente n" ++ [227] ++
  lit "o pode funcionar.".

Definition DISABLED_PLACEHOLDER : str :=
  lit "Aplica" ++ [231; 227] ++ lit "o desativada - API_KEY n" ++ [227] ++
  lit "o configurada.".

Definition MISSING_KEY : str :=
  lit "A vari" ++ [225] ++ lit "vel de ambiente API_KEY n" ++ [227] ++
  lit "o foi definida.".

Definition GREETING : str :=
  lit "Ol" ++ [225] ++
  lit "! Sou o NeoOtto, o seu consultor de IA. Em que posso ajudar a sua empresa hoje? Por exemplo, pode perguntar-me sobre como otimizar a log" ++ [237] ++
  lit "stica na sua PME.".

Definition MODEL : str := lit "gemini-2.5-flash".

Section Controller.

(** The markdown renderer [marked.parse], an opaque collaborator. *)
Variable marked_parse : str -> str.

(** The policy text of lines 18-158; the controller only passes it on. *)
Variable systemInstruction : str.

(** One iteration of the [for await] loop: the new buffer, and the state
    with the bot bubble re-rendered from it. *)
Definition stream_step (botMessageEl : nat) (acc : str * App)
    (chunk_text : str) : str * App :=
  let bufferedText := append (fst acc) chunk_text in
  (bufferedText,
   set_content botMessageEl
     (InnerHTML (marked_parse (displayText bufferedText))) (snd acc)).

(** Lines 251-262: the user bubble, the loading state, the empty bot
    bubble, and the removal of the previous suggestion container.  Returns
    [botMessageEl] and the page as the [try] statement finds it. *)
Definition send_prologue (userMessage : str) (st : App) : nat * App :=
  let (userEl, st1) := appendMessage user st in
  let st2 := set_content userEl (TextContent userMessage) st1 in
  let st3 := setLoading true st2 in
  let (botMessageEl, st4) := appendMessage bot st3 in
  (botMessageEl,
   with_container (remove_first_suggestions (chatContainer st4))
     (nextEl st4) st4).

(** Lines 265-277, the [try] block: the call, the loop over the chunks,
    then either the failure of the stream or the suggestions. *)
Definition send_try (botMessageEl : nat) (userMessage : str)
    (remote : Remote) (s0 : App) : Completion :=
  let s1 := with_logs (remoteCalls s0 ++ [userMessage]) (console s0) s0 in
  let (bufferedText, s2) :=
    fold_left (stream_step botMessageEl) (chunks remote) ([], s1) in
  match failure remote with
  | Some e => Throw e s2
  | None => Normal (processAndDisplaySuggestions bufferedText s2)
  end.

(** Lines 280-282, the [catch] clause. *)
Definition send_catch (botMessageEl : nat) (error : Thrown) (s0 : App)
    : Completion :=
  let s1 := with_logs (remoteCalls s0) (console s0 ++ [error]) s0 in
  Normal (set_content botMessageEl
            (InnerHTML (RETRY_PREFIX ++ errorMessage error ++ CODE_CLOSE))
            s1).

(** Lines 284-285, the [finally] clause. *)
Definition send_finally (s0 : App) : App :=
  let s1 := setLoading false s0 in
  with_input (chatInput_value s1) (chatInput_disabled s1)
    (chatInput_placeholder s1) true s1.

(** [sendMessageAndStreamResponse(userMessage)], given what the provider
    does with the call. *)
Definition sendMessageAndStreamResponse (userMessage : str)
    (remote : Remote) (st : App) : Completion :=
  if is_empty userMessage || negb (is_some (chat st)) then Normal st
  else
    let (botMessageEl, st5) := send_prologue userMessage st in
    try_catch_finally
      (send_try botMessageEl userMessage remote)
      (send_catch botMessageEl)
      send_finally
      st5.

(** [handleFormSubmit(event)]; resizing the textarea is presentation. *)
Definition handleFormSubmit (remote : Remote) (st : App) : Completion :=
  let userMessage := trim (chatInput_value st) in
  if is_empty userMessage then Normal st
  else
    let st1 := with_input (chatInput_defaultValue st) (chatInput_disabled st)
                 (chatInput_placeholder st) (chatInput_focused st) st in
    sendMessageAndStreamResponse userMessage remote st1.

(** [displayInitialGreeting()] *)
Definition displayInitialGreeting (st : App) : App :=
  let (botMessageEl, st1) := appendMessage bot st in
  set_content botMessageEl (InnerHTML (marked_parse GREETING)) st1.

(** [!API_KEY] for [process.env.API_KEY]: undefined, or the empty string. *)
Definition key_absent (API_KEY : option str) : bool :=
  match API_KEY with
  | None => true
  | Some k => is_empty k
  end.

(** [initializeApp()].  Constructing the client and the session with a
    non-empty key are local object constructions that succeed.  The
    source has no [finally] here, hence the identity finalizer. *)
Definition initializeApp (API_KEY : option str) (st : App) : Completion :=
  try_catch_finally
    (fun s0 =>
       match API_KEY with
       | Some k =>
           if is_empty k then Throw (ErrorObject MISSING_KEY) s0
           else
             let s1 := with_chat
                         (Some {| chat_apiKey := k; chat_model := MODEL;
                                  chat_instruction := systemInstruction |})
                         s0 in
             Normal (displayInitialGreeting s1)
       | None => Throw (ErrorObject MISSING_KEY) s0
       end)
    (fun error s0 =>
       let s1 := with_logs (remoteCalls s0) (console s0 ++ [error]) s0 in
       let (errorContainer, s2) := appendMessage bot s1 in
       let s3 := set_content errorContainer (InnerHTML CONFIG_ERROR_HTML) s2 in
       let s4 := with_input (chatInput_value s3) true
                   (chatInput_placeholder s3) (chatInput_focused s3) s3 in
       let s5 := with_sendButton true (sendButton_innerHTML s4) s4 in
       Normal (with_input (chatInput_value s5) (chatInput_disabled s5)
                 DISABLED_PLACEHOLDER (chatInput_focused s5) s5))
    (fun s0 => s0)
    st.

(** A run of send attempts, each with what the provider would do; a throw
    that escapes ends the run. *)
Fixpoint send_all (attempts : list (str * Remote)) (st : App) : Completion :=
  match attempts with
  | [] => Normal st
  | (m, r) :: rest =>
      match sendMessageAndStreamResponse m r st with
      | Normal st' => send_all rest st'
      | Throw e st' => Throw e st'
      end
  end.

End Controller.

(** Every bubble of the list was created before element [k]. *)
Definition els_below (k : nat) (ns : list Node) : bool :=
  forallb (fun n => match n with
                    | MessageNode el _ _ => (el <? k)%nat
                    | SuggestionsNode _ => true
                    end) ns.

(** Every bubble in the container was created before [nextEl]: content
    element identities are not reused. *)
Definition fresh_els (st : App) : bool :=
  els_below (nextEl st) (chatContainer st).

Definition completed (c : Completion) : bool :=
  match c with Normal _ => true | Throw _ _ => false end.

Definition final_state (c : Completion) : App :=
  match c with Normal st => st | Throw _ st => st end.

(** A page as loaded, before [initializeApp] runs, and the same page after
    a start with a key; the renderer of the examples is the identity. *)
Definition sample_page : App :=
  {| chat := None; chatContainer := []; nextEl := 0%nat;
     chatInput_value := []; chatInput_defaultValue := [];
     chatInput_disabled := false;
     chatInput_placeholder := lit "Pergunte...";
     chatInput_focused := false;
     sendButton_disabled := false;
     sendButton_innerHTML := lit "<svg></svg>";
     sendButtonIcon := lit "<svg></svg>";
     remoteCalls := []; console := [] |}.

Definition sample_ready : App :=
  final_state (initializeApp (fun s => s) (lit "policy") (Some (lit "key"))
                 sample_page).

Definition sample_disabled : App :=
  final_state (initializeApp (fun s => s) (lit "policy") None sample_page).

(** ** Vocabulary of the statements *)

(** A text holds a closed block when a start marker is followed, anywhere
    later, by an end marker. *)
Definition has_closed_block (s : str) : Prop :=
  exists a b x, s = a ++ START_MARKER ++ b ++ END_MARKER ++ x.

Definition has (c : N) (s : str) : bool := existsb (N.eqb c) s.

(** A string of white space and line terminators only. *)
Definition blank (w : str) : bool := forallb is_ws w.

(** [lines.join('\n')] *)
Fixpoint join_lf (ls : list str) : str :=
  match ls with
  | [] => []
  | l :: ls' =>
      match ls' with
      | [] => l
      | _ :: _ => l ++ LF :: join_lf ls'
      end
  end.

(** A line of a suggestion block that carries a double-quoted string: the
    text before the opening quote, the quoted content, and the text after
    the closing quote. *)
Record QuotedLine := {
  before_quote : str;
  quoted : str;
  after_quote : str
}.

Definition line_text (q : QuotedLine) : str :=
  before_quote q ++ DQUOTE :: quoted q ++ DQUOTE :: after_quote q.

(** The line holds exactly one double-quoted string and no line feed. *)
Definition one_quoted_string (q : QuotedLine) : bool :=
  negb (has DQUOTE (before_quote q)) && negb (has DQUOTE (quoted q))
  && negb (has DQUOTE (after_quote q)) && negb (has LF (line_text q)).

(** The first pair of quotes on the line encloses [quoted q], and the quoted
    content holds no line terminator (LF, CR, LS, PS). *)
Definition first_quoted_string (q : QuotedLine) : bool :=
  negb (has DQUOTE (before_quote q)) && negb (has DQUOTE (quoted q))
  && negb (has LF (line_text q))
  && negb (existsb is_line_terminator (quoted q)).

(** The inside of a block made of the given lines, with optional white space
    (such as the usual line feeds) around them. *)
Definition block_body (ws1 : str) (qs : list QuotedLine) (ws2 : str) : str :=
  ws1 ++ join_lf (map line_text qs) ++ ws2.

(** An assistant turn [P ++ "[SUGGESTIONS]" ++ B ++ "[/SUGGESTIONS]" ++ S]. *)
Definition turn_text (P B S : str) : str :=
  P ++ START_MARKER ++ B ++ END_MARKER ++ S.

(** A turn with several blocks: each pair is the text before a block and the
    inside of that block; [tail] follows the last block. *)
Fixpoint assemble (blocks : list (str * str)) (tail : str) : str :=
  match blocks with
  | [] => tail
  | (p, b) :: rest => turn_text p b (assemble rest tail)
  end.

(** The text before a block has no start marker and the inside of the block
    has no end marker: the block's markers are the first of their kind. *)
Definition clean_block (pb : str * str) : bool :=
  negb (includes START_MARKER (fst pb)) && negb (includes END_MARKER (snd pb)).

(** The scenario of the specification: the greeting, the buffer received up
    to the first quoted line, and the complete output. *)
Definition OLA : str := lit "Ol" ++ [225] ++ lit "!".
Definition scenario_midstream : str :=
  OLA ++ [LF] ++ START_MARKER ++ [LF; DQUOTE] ++ lit "Pergunta 1?" ++ [DQUOTE].
Definition scenario_full : str :=
  scenario_midstream ++ [LF; DQUOTE] ++ lit "Pergunta 2?" ++ [DQUOTE; LF]
  ++ END_MARKER.

(** A line that is just a quoted string. *)
Definition bare (c : str) : QuotedLine :=
  {| before_quote := []; quoted := c; after_quote := [] |}.

(** The quoted strings of the lines of a text, without the trimming. *)
Definition line_captures (s : str) : list str :=
  captures (map exec_quoted (split_lf s)).

(** Appending a code unit to the last line. *)
Fixpoint snoc_last (c : N) (ls : list str) : list str :=
  match ls with
  | [] => [[c]]
  | l :: ls' =>
      match ls' with
      | [] => [l ++ [c]]
      | _ :: _ => l :: snoc_last c ls'
      end
  end.

(** ** Vocabulary of the page after a turn *)

Definition is_suggestions (n : Node) : bool :=
  match n with SuggestionsNode _ => true | MessageNode _ _ _ => false end.

Definition is_message (n : Node) : bool := negb (is_suggestions n).

(** The suggestion containers and the message bubbles of a container. *)
Definition count_suggestions (ns : list Node) : nat :=
  length (filter is_suggestions ns).

Definition messages (ns : list Node) : list Node := filter is_message ns.

(** What the bot bubble holds when the stream ends normally: nothing when no
    chunk came, else the rendering of the display text of all chunks. *)
Definition bot_body (marked_parse : str -> str) (cs : list str) : Content :=
  match cs with
  | [] => Blank
  | _ :: _ => InnerHTML (marked_parse (displayText (concat cs)))
  end.

(** The container that [processAndDisplaySuggestions] appends, if any. *)
Definition chips_of (fullResponse : str) : list Node :=
  if (length (parseSuggestions fullResponse) =? 0)%nat then []
  else [SuggestionsNode (parseSuggestions fullResponse)].

(** The nodes a turn adds to the chat: the user bubble, the bot bubble, and
    after a normal end of the stream the suggestion container. *)
Definition turn_result (marked_parse : str -> str) (n : nat)
    (userMessage : str) (remote : Remote) : list Node :=
  match failure remote with
  | Some e =>
      [MessageNode n user (TextContent userMessage);
       MessageNode (S n) bot
         (InnerHTML (RETRY_PREFIX ++ errorMessage e ++ CODE_CLOSE))]
  | None =>
      [MessageNode n user (TextContent userMessage);
       MessageNode (S n) bot (bot_body marked_parse (chunks remote))]
      ++ chips_of (concat (chunks remote))
  end.

(** The page when the loop over the chunks ends, and the page when the
    [finally] clause starts. *)
Definition after_stream (marked_parse : str -> str) (userMessage : str)
    (remote : Remote) (st : App) : App :=
  let p := snd (send_prologue userMessage st) in
  let s1 := with_logs (remoteCalls p ++ [userMessage]) (console p) p in
  match chunks remote with
  | [] => s1
  | _ :: _ =>
      set_content (S (nextEl st))
        (InnerHTML (marked_parse (displayText (concat (chunks remote))))) s1
  end.

Definition before_finally (marked_parse : str -> str) (userMessage : str)
    (remote : Remote) (st : App) : App :=
  match failure remote with
  | Some e =>
      final_state
        (send_catch (S (nextEl st)) e
           (after_stream marked_parse userMessage remote st))
  | None =>
      processAndDisplaySuggestions (concat (chunks remote))
        (after_stream marked_parse userMessage remote st)
  end.

(** The parts of the page that no turn changes. *)
Definition frame (st : App) : option Chat * str * str * str * str :=
  (chat st, chatInput_value st, chatInput_defaultValue st,
   chatInput_placeholder st, sendButtonIcon st).

(** The messages of a run of attempts that pass the guard of the send. *)
Definition sent_messages (attempts : list (str * Remote)) : list str :=
  filter (fun m => negb (is_empty m)) (map fst attempts).

(** * Properties *)

(** ** Literal matching and substring search *)

Lemma strip_prefix_app p r : strip_prefix p (p ++ r) = Some r.
Proof.
  induction p as [|a p IH]; simpl; [reflexivity|].
  rewrite N.eqb_refl. exact IH.
Qed.

Lemma strip_prefix_sound p s r : strip_prefix p s = Some r -> s = p ++ r.
Proof.
  revert s; induction p as [|a p IH]; intros [|b s] H; simpl in *;
    try discriminate; try (injection H as <-; reflexivity).
  destruct (a =? b) eqn:E; [|discriminate].
  apply N.eqb_eq in E. subst b. f_equal. apply IH, H.
Qed.

(** [includes] decides the occurrence of a substring. *)
Lemma includes_iff p s :
  includes p s = true <-> exists a b, s = a ++ p ++ b.
Proof.
  split.
  - induction s as [|c s IH]; simpl.
    + destruct (strip_prefix p []) as [l|] eqn:E; [|discriminate].
      intros _. exists [], l. apply strip_prefix_sound in E. exact E.
    + destruct (strip_prefix p (c :: s)) as [l|] eqn:E.
      * intros _. exists [], l. apply strip_prefix_sound in E. exact E.
      * intros H. destruct (IH H) as (a & b & ->). exists (c :: a), b.
        reflexivity.
  - intros (a & b & ->). induction a as [|c a IH].
    + simpl. destruct (p ++ b) eqn:E; simpl.
      * rewrite <- E, strip_prefix_app. reflexivity.
      * rewrite <- E, strip_prefix_app. reflexivity.
    + simpl. destruct (strip_prefix p (c :: a ++ p ++ b)); [reflexivity|].
      exact IH.
Qed.

Lemma includes_cons p c s : includes p (c :: s) = false -> includes p s = false.
Proof.
  simpl. destruct (strip_prefix p (c :: s)); [discriminate|]. auto.
Qed.

Lemma includes_prefix p s r : strip_prefix p s = Some r -> includes p s = true.
Proof.
  intros H. destruct s; simpl; rewrite H; reflexivity.
Qed.

(** A literal whose first code unit does not recur cannot match across the
    seam of [b ++ lit]: a match starting inside [b] lies within [b]. *)
Lemma strip_prefix_seam a q p' b r x :
  ~ In a q ->
  strip_prefix q (b ++ (a :: p') ++ x) = Some r ->
  exists r', strip_prefix q b = Some r'.
Proof.
  revert b; induction q as [|y q IH]; intros b Hq H.
  - exists b. reflexivity.
  - destruct b as [|c b]; simpl in H.
    + destruct (y =? a) eqn:E; [|discriminate].
      apply N.eqb_eq in E. subst y. exfalso. apply Hq. left. reflexivity.
    + simpl. destruct (y =? c); [|discriminate].
      apply IH in H; [exact H|]. intros Hin. apply Hq. right. exact Hin.
Qed.

Lemma no_overlap a p' c b x r :
  ~ In a p' ->
  strip_prefix (a :: p') ((c :: b) ++ (a :: p') ++ x) = Some r ->
  includes (a :: p') (c :: b) = true.
Proof.
  intros Hp H. simpl in H. destruct (a =? c) eqn:E; [|discriminate].
  destruct (strip_prefix_seam _ _ _ _ _ _ Hp H) as [r' Hr'].
  apply includes_prefix with (r := r'). simpl. rewrite E. exact Hr'.
Qed.

Lemma START_shape : exists p', START_MARKER = 91 :: p' /\ ~ In 91 p'.
Proof.
  eexists. split; [reflexivity|].
  intros H. repeat (destruct H as [H|H]; [discriminate H|]). exact H.
Qed.

Lemma END_shape : exists p', END_MARKER = 91 :: p' /\ ~ In 91 p'.
Proof.
  eexists. split; [reflexivity|].
  intros H. repeat (destruct H as [H|H]; [discriminate H|]). exact H.
Qed.

(** ** The block regex *)

Lemma lazy_any_until_sound p s cap r :
  lazy_any_until p s = Some (cap, r) -> s = cap ++ p ++ r.
Proof.
  revert cap; induction s as [|c s IH]; intros cap H; simpl in H.
  - destruct (strip_prefix p []) eqn:E; [|discriminate].
    injection H as <- <-. apply strip_prefix_sound in E. exact E.
  - destruct (strip_prefix p (c :: s)) eqn:E.
    + injection H as <- <-. apply strip_prefix_sound in E. exact E.
    + destruct (lazy_any_until p s) as [[cap' r']|] eqn:E'; [|discriminate].
      injection H as <- <-. simpl. f_equal. apply IH. reflexivity.
Qed.

Lemma lazy_any_until_complete p b x :
  lazy_any_until p (b ++ p ++ x) <> None.
Proof.
  induction b as [|c b IH]; simpl.
  - destruct (p ++ x) eqn:E; simpl; rewrite <- E, strip_prefix_app; discriminate.
  - destruct (strip_prefix p (c :: b ++ p ++ x)); [discriminate|].
    destruct (lazy_any_until p (b ++ p ++ x)) as [[? ?]|]; [discriminate|].
    exact IH.
Qed.

Lemma lazy_any_until_here p x : lazy_any_until p (p ++ x) = Some ([], x).
Proof.
  destruct (p ++ x) eqn:E; simpl; rewrite <- E, strip_prefix_app; reflexivity.
Qed.

(** The lazy quantifier stops at the first end marker. *)
Lemma lazy_any_until_first b x :
  includes END_MARKER b = false ->
  lazy_any_until END_MARKER (b ++ END_MARKER ++ x) = Some (b, x).
Proof.
  destruct END_shape as (p' & Hp & Hnin).
  induction b as [|c b IH]; intros Hb.
  - exact (lazy_any_until_here END_MARKER x).
  - cbn [lazy_any_until app].
    destruct (strip_prefix END_MARKER (c :: b ++ END_MARKER ++ x)) as [l|] eqn:E.
    + rewrite Hp in E, Hb.
      apply (no_overlap 91 p' c b x l Hnin) in E. congruence.
    + rewrite IH; [reflexivity|]. eapply includes_cons; eassumption.
Qed.

Lemma block_at_sound s cap r :
  block_at s = Some (cap, r) -> s = START_MARKER ++ cap ++ END_MARKER ++ r.
Proof.
  unfold block_at. destruct (strip_prefix START_MARKER s) as [t|] eqn:E;
    [|discriminate].
  intros H. apply strip_prefix_sound in E. apply lazy_any_until_sound in H.
  subst. reflexivity.
Qed.

(** What the search returns is a decomposition of the subject. *)
Lemma exec_block_sound s pre cap r :
  exec_block s = Some (pre, cap, r) ->
  s = pre ++ START_MARKER ++ cap ++ END_MARKER ++ r.
Proof.
  revert pre; induction s as [|c s IH]; intros pre H; cbn [exec_block] in H.
  - destruct (block_at []) as [[cap' r']|] eqn:E; [|discriminate].
    injection H as <- <- <-. apply block_at_sound in E. exact E.
  - destruct (block_at (c :: s)) as [[cap' r']|] eqn:E.
    + injection H as <- <- <-. apply block_at_sound in E. exact E.
    + destruct (exec_block s) as [[[pre' cap'] r']|] eqn:E'; [|discriminate].
      injection H as <- <- <-. simpl. f_equal. apply IH. reflexivity.
Qed.

(** A subject that has a start marker with an end marker after it is
    matched. *)
Lemma exec_block_complete a b x :
  exec_block (a ++ START_MARKER ++ b ++ END_MARKER ++ x) <> None.
Proof.
  induction a as [|c a IH].
  - cbn [app]. 
    assert (E : block_at (START_MARKER ++ b ++ END_MARKER ++ x) <> None).
    { unfold block_at. rewrite strip_prefix_app.
      apply lazy_any_until_complete. }
    destruct (START_MARKER ++ b ++ END_MARKER ++ x) eqn:E0;
      cbn [exec_block];
      destruct (block_at _) as [[? ?]|]; try discriminate; congruence.
  - cbn [app exec_block].
    destruct (block_at _) as [[? ?]|]; [discriminate|].
    destruct (exec_block _) as [[[? ?] ?]|]; [discriminate|]. exact IH.
Qed.

(** The search finds the first start marker and the first end marker after
    it. *)
Lemma exec_block_first p b x :
  includes START_MARKER p = false ->
  includes END_MARKER b = false ->
  exec_block (p ++ START_MARKER ++ b ++ END_MARKER ++ x) = Some (p, b, x).
Proof.
  intros Hp Hb. destruct START_shape as (q & Hq & Hnin).
  assert (Hhere : block_at (START_MARKER ++ b ++ END_MARKER ++ x) = Some (b, x)).
  { unfold block_at. rewrite strip_prefix_app.
    apply lazy_any_until_first, Hb. }
  induction p as [|c p IH].
  - cbn [app].
    destruct (START_MARKER ++ b ++ END_MARKER ++ x) eqn:E0;
      cbn [exec_block]; rewrite Hhere; reflexivity.
  - cbn [app exec_block].
    destruct (block_at (c :: p ++ START_MARKER ++ b ++ END_MARKER ++ x))
      as [[cap r]|] eqn:E.
    + exfalso. unfold block_at in E.
      destruct (strip_prefix START_MARKER
                  (c :: p ++ START_MARKER ++ b ++ END_MARKER ++ x))
        as [t|] eqn:E1; [|discriminate].
      rewrite Hq in E1, Hp.
      apply (no_overlap 91 q c p _ t Hnin) in E1. congruence.
    + rewrite IH; [reflexivity|]. eapply includes_cons; eassumption.
Qed.

Lemma exec_block_none_iff s : exec_block s = None <-> ~ has_closed_block s.
Proof.
  split.
  - intros H (a & b & x & ->). revert H. apply exec_block_complete.
  - intros H. destruct (exec_block s) as [[[pre cap] r]|] eqn:E; [|reflexivity].
    exfalso. apply H. exists pre, cap, r. apply exec_block_sound, E.
Qed.

(** ** Global replacement *)

Lemma replace_blocks_eq s :
  replace_blocks s =
    match exec_block s with
    | Some (pre, _, rest) => pre ++ replace_blocks rest
    | None => s
    end.
Proof.
  rewrite replace_blocks_equation_1. unfold inspect.
  assert (G : forall o (e : exec_block s = o),
             replace_blocks_unfold_clause_1 s (exist _ o e) =
             match o with
             | Some (pre, _, rest) => pre ++ replace_blocks rest
             | None => s
             end).
  { intros [[[pre cap] r]|] e; reflexivity. }
  apply G.
Qed.

(** ** White space and trimming *)

Lemma ws_not_quote c : is_ws c = true -> (c =? DQUOTE) = false.
Proof.
  intros H. destruct (c =? DQUOTE) eqn:E; [|reflexivity].
  apply N.eqb_eq in E. subst c. discriminate H.
Qed.

Lemma blank_rev w : blank w = true -> blank (rev w) = true.
Proof.
  unfold blank. rewrite !forallb_forall. intros H x Hx.
  apply H, in_rev, Hx.
Qed.

Lemma trimStart_decomp s : exists w, blank w = true /\ s = w ++ trimStart s.
Proof.
  induction s as [|c s (w & Hw & IH)].
  - exists []. split; reflexivity.
  - simpl. destruct (is_ws c) eqn:E.
    + exists (c :: w). split; [simpl; rewrite E; exact Hw|].
      simpl. f_equal. exact IH.
    + exists []. split; reflexivity.
Qed.

Lemma trimEnd_decomp s : exists w, blank w = true /\ s = trimEnd s ++ w.
Proof.
  destruct (trimStart_decomp (rev s)) as (w & Hw & E).
  exists (rev w). split; [apply blank_rev, Hw|].
  unfold trimEnd. rewrite <- rev_app_distr, <- E, rev_involutive. reflexivity.
Qed.

Lemma trim_decomp s :
  exists w1 w2, blank w1 = true /\ blank w2 = true /\ s = w1 ++ trim s ++ w2.
Proof.
  destruct (trimStart_decomp s) as (w1 & H1 & E1).
  destruct (trimEnd_decomp (trimStart s)) as (w2 & H2 & E2).
  exists w1, w2. repeat split; try assumption.
  unfold trim. rewrite <- E2. exact E1.
Qed.

(** ** The quote regex *)

Lemma lazy_dot_blank w : blank w = true -> lazy_dot_until_quote w = None.
Proof.
  induction w as [|c w IH]; [reflexivity|]. simpl.
  intros H. apply andb_prop in H as [Hc Hw].
  rewrite (ws_not_quote _ Hc), (IH Hw).
  destruct (is_line_terminator c); reflexivity.
Qed.

Lemma lazy_dot_app_blank t w :
  blank w = true -> lazy_dot_until_quote (t ++ w) = lazy_dot_until_quote t.
Proof.
  intros Hw. induction t as [|x t IH]; simpl.
  - apply lazy_dot_blank, Hw.
  - rewrite IH. reflexivity.
Qed.

Lemma exec_quoted_blank_app w s :
  blank w = true -> exec_quoted (w ++ s) = exec_quoted s.
Proof.
  induction w as [|c w IH]; [reflexivity|]. simpl.
  intros H. apply andb_prop in H as [Hc Hw].
  rewrite (ws_not_quote _ Hc). apply IH, Hw.
Qed.

Lemma exec_quoted_app_blank s w :
  blank w = true -> exec_quoted (s ++ w) = exec_quoted s.
Proof.
  intros Hw. induction s as [|x s IH].
  - rewrite app_nil_l. rewrite <- (app_nil_r w).
    rewrite exec_quoted_blank_app by exact Hw. reflexivity.
  - cbn [app exec_quoted quoted_at]. rewrite IH, lazy_dot_app_blank by exact Hw.
    reflexivity.
Qed.

(** Trimming a line does not change what the quote regex finds on it. *)
Lemma exec_quoted_trim s : exec_quoted (trim s) = exec_quoted s.
Proof.
  destruct (trim_decomp s) as (w1 & w2 & H1 & H2 & E).
  rewrite E at 2.
  rewrite exec_quoted_blank_app, exec_quoted_app_blank by assumption.
  reflexivity.
Qed.

Lemma lazy_dot_content c post :
  has DQUOTE c = false -> existsb is_line_terminator c = false ->
  lazy_dot_until_quote (c ++ DQUOTE :: post) = Some c.
Proof.
  unfold has.
  induction c as [|x c IH]; cbn [existsb app lazy_dot_until_quote];
    intros H1 H2; [rewrite N.eqb_refl; reflexivity|].
  apply orb_false_elim in H1 as [Hx H1].
  apply orb_false_elim in H2 as [Hl H2].
  rewrite N.eqb_sym in Hx. rewrite Hx, Hl, IH by assumption. reflexivity.
Qed.

(** On a line whose first quote opens a string free of line terminators, the
    regex captures the content up to the next quote. *)
Lemma exec_quoted_line q :
  first_quoted_string q = true -> exec_quoted (line_text q) = Some (quoted q).
Proof.
  unfold first_quoted_string, line_text.
  intros H. apply andb_prop in H as [H Hlt]. apply andb_prop in H as [H _].
  apply andb_prop in H as [Hpre Hc].
  apply negb_true_iff in Hpre, Hc, Hlt.
  induction (before_quote q) as [|x pre IH].
  - cbn [app exec_quoted quoted_at]. rewrite N.eqb_refl.
    rewrite lazy_dot_content by assumption. reflexivity.
  - unfold has in Hpre. cbn [existsb] in Hpre.
    apply orb_false_elim in Hpre as [Hx Hpre].
    cbn [app exec_quoted quoted_at]. rewrite N.eqb_sym in Hx. rewrite Hx.
    apply IH, Hpre.
Qed.

(** ** Splitting into lines *)

Lemma split_lf_nonempty s : split_lf s <> [].
Proof.
  destruct s as [|c s]; simpl; [discriminate|].
  destruct (c =? LF); [discriminate|].
  destruct (split_lf s); discriminate.
Qed.

Lemma split_lf_cons_other c s :
  (c =? LF) = false ->
  exists l ls, split_lf s = l :: ls /\ split_lf (c :: s) = (c :: l) :: ls.
Proof.
  intros H. cbn [split_lf]. rewrite H.
  destruct (split_lf s) as [|l ls] eqn:E.
  - exfalso. revert E. apply split_lf_nonempty.
  - exists l, ls. split; reflexivity.
Qed.

Lemma split_lf_line l t :
  has LF l = false -> split_lf (l ++ LF :: t) = l :: split_lf t.
Proof.
  unfold has. induction l as [|x l IH]; cbn [existsb app split_lf]; intros H.
  - rewrite N.eqb_refl. reflexivity.
  - apply orb_false_elim in H as [Hx H]. rewrite N.eqb_sym in Hx.
    rewrite Hx, IH by assumption. reflexivity.
Qed.

Lemma split_lf_single l : has LF l = false -> split_lf l = [l].
Proof.
  unfold has. induction l as [|x l IH]; cbn [existsb split_lf]; intros H.
  - reflexivity.
  - apply orb_false_elim in H as [Hx H]. rewrite N.eqb_sym in Hx.
    rewrite Hx, IH by assumption. reflexivity.
Qed.

(** Splitting undoes joining, for a non-empty list of lines without LF. *)
Lemma split_join ls :
  ls <> [] -> forallb (fun l => negb (has LF l)) ls = true ->
  split_lf (join_lf ls) = ls.
Proof.
  induction ls as [|l ls IH]; [congruence|]. intros _ H.
  cbn [forallb] in H. apply andb_prop in H as [Hl H].
  apply negb_true_iff in Hl. cbn [join_lf].
  destruct ls as [|l2 ls].
  - apply split_lf_single, Hl.
  - rewrite split_lf_line by exact Hl. f_equal. apply IH; [discriminate|exact H].
Qed.

Lemma split_lf_snoc s c :
  split_lf (s ++ [c]) =
    if c =? LF then split_lf s ++ [[]] else snoc_last c (split_lf s).
Proof.
  induction s as [|x s IH].
  - cbn [app split_lf]. destruct (c =? LF); reflexivity.
  - cbn [app]. destruct (x =? LF) eqn:Ex.
    + cbn [split_lf]. rewrite Ex, IH.
      destruct (c =? LF); [reflexivity|].
      destruct (split_lf s) as [|l ls] eqn:E; [|reflexivity].
      exfalso. revert E. apply split_lf_nonempty.
    + destruct (split_lf_cons_other x s Ex) as (l & ls & E & ->).
      cbn [split_lf]. rewrite Ex, IH, E.
      destruct (c =? LF); [reflexivity|].
      destruct ls; reflexivity.
Qed.

(** ** Collecting the captures *)

Lemma captures_app a b : captures (a ++ b) = captures a ++ captures b.
Proof.
  unfold captures. rewrite filter_app, map_app. reflexivity.
Qed.

Lemma map_exec_quoted_snoc_last c ls :
  is_ws c = true -> ls <> [] ->
  map exec_quoted (snoc_last c ls) = map exec_quoted ls.
Proof.
  intros Hc. induction ls as [|l ls IH]; [congruence|]. intros _.
  destruct ls as [|l2 ls].
  - cbn [snoc_last map]. rewrite exec_quoted_app_blank; [reflexivity|].
    simpl. rewrite Hc. reflexivity.
  - change (snoc_last c (l :: l2 :: ls)) with (l :: snoc_last c (l2 :: ls)).
    cbn [map]. f_equal. apply IH. discriminate.
Qed.

Lemma line_captures_blank_app w s :
  blank w = true -> line_captures (w ++ s) = line_captures s.
Proof.
  induction w as [|c w IH]; [reflexivity|]. intros H.
  cbn [blank forallb] in H. apply andb_prop in H as [Hc Hw].
  specialize (IH Hw). unfold line_captures in *. cbn [app].
  destruct (c =? LF) eqn:E.
  - cbn [split_lf]. rewrite E. exact IH.
  - destruct (split_lf_cons_other c (w ++ s) E) as (l & ls & E1 & ->).
    rewrite E1 in IH. rewrite <- IH. cbn [map exec_quoted quoted_at].
    rewrite (ws_not_quote _ Hc). reflexivity.
Qed.

Lemma line_captures_snoc s c :
  is_ws c = true -> line_captures (s ++ [c]) = line_captures s.
Proof.
  intros Hc. unfold line_captures. rewrite split_lf_snoc.
  destruct (c =? LF).
  - rewrite map_app, captures_app. apply app_nil_r.
  - rewrite map_exec_quoted_snoc_last; [reflexivity|exact Hc|].
    apply split_lf_nonempty.
Qed.

Lemma line_captures_app_blank w s :
  blank w = true -> line_captures (s ++ w) = line_captures s.
Proof.
  revert s. induction w as [|c w IH]; intros s H.
  - rewrite app_nil_r. reflexivity.
  - cbn [blank forallb] in H. apply andb_prop in H as [Hc Hw].
    change (c :: w) with ([c] ++ w). rewrite app_assoc.
    rewrite IH by exact Hw. apply line_captures_snoc, Hc.
Qed.

(** The two calls of [trim] in the parser change nothing in its result. *)
Lemma block_suggestions_lines m1 : block_suggestions m1 = line_captures m1.
Proof.
  unfold block_suggestions.
  rewrite (map_ext _ exec_quoted) by (intros; apply exec_quoted_trim).
  fold (line_captures (trim m1)).
  destruct (trim_decomp m1) as (w1 & w2 & H1 & H2 & E).
  rewrite E at 2.
  rewrite line_captures_blank_app, line_captures_app_blank by assumption.
  reflexivity.
Qed.

Lemma captures_lines qs :
  forallb first_quoted_string qs = true ->
  captures (map exec_quoted (map line_text qs)) = map quoted qs.
Proof.
  induction qs as [|q qs IH]; [reflexivity|]. intros H.
  cbn [forallb] in H. apply andb_prop in H as [Hq H].
  cbn [map]. rewrite (exec_quoted_line q Hq).
  unfold captures in *. cbn [filter is_some map]. f_equal. apply IH, H.
Qed.

Lemma first_quoted_no_lf q :
  first_quoted_string q = true -> negb (has LF (line_text q)) = true.
Proof.
  unfold first_quoted_string. intros H.
  apply andb_prop in H as [H _]. apply andb_prop in H as [_ H]. exact H.
Qed.

(** The lines of a block body, each with its first quoted string, give
    exactly the quoted contents, in order. *)
Lemma block_suggestions_body ws1 qs ws2 :
  blank ws1 = true -> blank ws2 = true ->
  forallb first_quoted_string qs = true ->
  block_suggestions (block_body ws1 qs ws2) = map quoted qs.
Proof.
  intros H1 H2 Hq. rewrite block_suggestions_lines. unfold block_body.
  rewrite line_captures_blank_app, line_captures_app_blank by assumption.
  unfold line_captures. destruct qs as [|q qs]; [reflexivity|].
  rewrite split_join.
  - apply captures_lines, Hq.
  - discriminate.
  - rewrite forallb_forall in Hq |- *.
    intros x Hx. apply in_map_iff in Hx as (q' & <- & Hq').
    apply first_quoted_no_lf, Hq, Hq'.
Qed.

(** The parser reads the block that [exec_block] finds. *)
Lemma parseSuggestions_turn P B S :
  includes START_MARKER P = false ->
  includes END_MARKER B = false ->
  parseSuggestions (turn_text P B S) = block_suggestions B.
Proof.
  intros HP HB. unfold parseSuggestions, turn_text.
  rewrite exec_block_first by assumption.
  destruct B; reflexivity.
Qed.

(** ** Texts without a closed block *)

Lemma exec_block_without_end t : includes END_MARKER t = false -> exec_block t = None.
Proof.
  intros H. destruct (exec_block t) as [[[pre cap] r]|] eqn:E; [|reflexivity].
  apply exec_block_sound in E.
  assert (includes END_MARKER t = true); [|congruence].
  apply includes_iff. exists (pre ++ START_MARKER ++ cap), r.
  rewrite E, <- !app_assoc. reflexivity.
Qed.

Lemma exec_block_without_start t :
  includes START_MARKER t = false -> exec_block t = None.
Proof.
  intros H. destruct (exec_block t) as [[[pre cap] r]|] eqn:E; [|reflexivity].
  apply exec_block_sound in E.
  assert (includes START_MARKER t = true); [|congruence].
  apply includes_iff. exists pre, (cap ++ END_MARKER ++ r). exact E.
Qed.

(** An end marker cannot begin inside a text that has no opening bracket. *)
Lemma includes_end_skip u b :
  ~ In 91 u -> includes END_MARKER b = false ->
  includes END_MARKER (u ++ b) = false.
Proof.
  destruct END_shape as (p' & Hp & _).
  induction u as [|x u IH]; intros Hu H; [exact H|].
  cbn [app includes].
  destruct (strip_prefix END_MARKER (x :: u ++ b)) as [l|] eqn:E.
  - exfalso. apply strip_prefix_sound in E. rewrite Hp in E.
    injection E as E _. apply Hu. left. exact E.
  - apply IH; [|exact H]. intros Hin. apply Hu. right. exact Hin.
Qed.

Lemma includes_end_after_start b :
  includes END_MARKER b = false ->
  includes END_MARKER (START_MARKER ++ b) = false.
Proof.
  intros H. change START_MARKER with (91 :: lit "SUGGESTIONS]").
  cbn [app includes].
  change (strip_prefix END_MARKER (91 :: lit "SUGGESTIONS]" ++ b))
    with (@None str).
  apply includes_end_skip; [|exact H].
  intros Hin. repeat (destruct Hin as [Hin|Hin]; [discriminate Hin|]).
  exact Hin.
Qed.

(** When no end marker follows the first start marker, nothing matches. *)
Lemma exec_block_reversed a b :
  includes START_MARKER a = false -> includes END_MARKER b = false ->
  exec_block (a ++ START_MARKER ++ b) = None.
Proof.
  intros Ha Hb. destruct START_shape as (q & Hq & Hnin).
  induction a as [|c a IH].
  - apply exec_block_without_end, includes_end_after_start, Hb.
  - cbn [app exec_block].
    destruct (block_at (c :: a ++ START_MARKER ++ b)) as [[cap r]|] eqn:E.
    + exfalso. unfold block_at in E.
      destruct (strip_prefix START_MARKER (c :: a ++ START_MARKER ++ b))
        as [t|] eqn:E1; [|discriminate].
      rewrite Hq in E1, Ha.
      apply (no_overlap 91 q c a _ t Hnin) in E1. congruence.
    + rewrite IH; [reflexivity|]. eapply includes_cons; eassumption.
Qed.

Lemma replace_blocks_turn p b x :
  includes START_MARKER p = false -> includes END_MARKER b = false ->
  replace_blocks (turn_text p b x) = p ++ replace_blocks x.
Proof.
  intros Hp Hb. rewrite replace_blocks_eq. unfold turn_text.
  rewrite exec_block_first by assumption. reflexivity.
Qed.

Lemma replace_blocks_none s : ~ has_closed_block s -> replace_blocks s = s.
Proof.
  intros H. apply exec_block_none_iff in H.
  rewrite replace_blocks_eq, H. reflexivity.
Qed.

Lemma replace_blocks_assemble blocks tail :
  forallb clean_block blocks = true -> ~ has_closed_block tail ->
  replace_blocks (assemble blocks tail) = concat (map fst blocks) ++ tail.
Proof.
  intros H Ht. induction blocks as [|[p b] blocks IH].
  - apply replace_blocks_none, Ht.
  - cbn [forallb] in H. apply andb_prop in H as [Hpb H].
    unfold clean_block in Hpb. apply andb_prop in Hpb as [Hp Hb].
    apply negb_true_iff in Hp, Hb. cbn [fst snd] in Hp, Hb.
    cbn [assemble map concat fst]. rewrite replace_blocks_turn by assumption.
    rewrite IH by exact H. apply app_assoc.
Qed.

(** ** Suggestion parser: specification properties *)

(** C1 (as stated, refuted).  Three turns of the claimed form, each with one
    line holding exactly one double-quoted string, on which the parser does
    not return that one string: a start marker already present in the text
    before the block makes the match begin there (two suggestions); a
    carriage return inside the quotes makes the quote regex fail on the line
    (no suggestion); an end marker inside the quotes ends the block early
    (no suggestion). *)
Lemma parser_claimed_form_counterexample :
  (forallb one_quoted_string [bare (lit "a")] = true /\
   parseSuggestions
     (turn_text (START_MARKER ++ [DQUOTE] ++ lit "x" ++ [DQUOTE; LF])
                (block_body [LF] [bare (lit "a")] [LF]) [])
   = [lit "x"; lit "a"] /\
   parseSuggestions
     (turn_text (START_MARKER ++ [DQUOTE] ++ lit "x" ++ [DQUOTE; LF])
                (block_body [LF] [bare (lit "a")] [LF]) [])
   <> map quoted [bare (lit "a")]) /\
  (forallb one_quoted_string [bare (lit "a" ++ [CR] ++ lit "b")] = true /\
   parseSuggestions
     (turn_text [] (block_body [LF] [bare (lit "a" ++ [CR] ++ lit "b")] [LF]) [])
   = [] /\
   parseSuggestions
     (turn_text [] (block_body [LF] [bare (lit "a" ++ [CR] ++ lit "b")] [LF]) [])
   <> map quoted [bare (lit "a" ++ [CR] ++ lit "b")]) /\
  (forallb one_quoted_string [bare (lit "a" ++ END_MARKER ++ lit "b")] = true /\
   parseSuggestions
     (turn_text []
        (block_body [LF] [bare (lit "a" ++ END_MARKER ++ lit "b")] [LF]) [])
   = [] /\
   parseSuggestions
     (turn_text []
        (block_body [LF] [bare (lit "a" ++ END_MARKER ++ lit "b")] [LF]) [])
   <> map quoted [bare (lit "a" ++ END_MARKER ++ lit "b")]).
Proof. vm_compute. repeat split; discriminate. Qed.

(** C1 (amended).  For a turn [P ++ "[SUGGESTIONS]" ++ B ++ "[/SUGGESTIONS]"
    ++ S] in which [P] holds no start marker, [B] holds no end marker, and
    [B] is N lines (with optional white space around them) whose first
    quoted string holds no line terminator, the parser returns exactly the N
    quoted contents, in line order, whatever N is and with repetitions
    kept. *)
Theorem parser_returns_quoted_lines P ws1 qs ws2 S :
  includes START_MARKER P = false ->
  includes END_MARKER (block_body ws1 qs ws2) = false ->
  blank ws1 = true -> blank ws2 = true ->
  forallb first_quoted_string qs = true ->
  parseSuggestions (turn_text P (block_body ws1 qs ws2) S) = map quoted qs /\
  length (parseSuggestions (turn_text P (block_body ws1 qs ws2) S)) = length qs.
Proof.
  intros HP HB H1 H2 Hq.
  assert (E : parseSuggestions (turn_text P (block_body ws1 qs ws2) S)
              = map quoted qs).
  { rewrite parseSuggestions_turn by assumption.
    apply block_suggestions_body; assumption. }
  split; [exact E|]. rewrite E. apply length_map.
Qed.

(** Four lines, two of them equal: four suggestions come back. *)
Lemma parser_returns_quoted_lines_witness :
  let qs := [bare (lit "A?"); bare (lit "B?"); bare (lit "A?");
             {| before_quote := lit "4. "; quoted := lit "D?";
                after_quote := lit " (opcional)" |}] in
  parseSuggestions (turn_text OLA (block_body [LF] qs [LF]) (lit " fim"))
    = [lit "A?"; lit "B?"; lit "A?"; lit "D?"] /\
  length (parseSuggestions
            (turn_text OLA (block_body [LF] qs [LF]) (lit " fim"))) = 4%nat.
Proof.
  intros qs.
  apply (parser_returns_quoted_lines OLA [LF] qs [LF] (lit " fim"));
    vm_compute; reflexivity.
Defined.

(** The scenario of the specification, after full receipt. *)
Example parser_scenario_full :
  parseSuggestions scenario_full = [lit "Pergunta 1?"; lit "Pergunta 2?"].
Proof. vm_compute. reflexivity. Qed.

(** C9.  A line that is just two double quotes is kept: the parser returns
    an empty suggestion at its place, and the container that is appended has
    a chip with empty text for it. *)
Theorem empty_quoted_line_kept P ws1 qs1 qs2 ws2 Sf st :
  let body := block_body ws1 (qs1 ++ bare [] :: qs2) ws2 in
  includes START_MARKER P = false ->
  includes END_MARKER body = false ->
  blank ws1 = true -> blank ws2 = true ->
  forallb first_quoted_string qs1 = true ->
  forallb first_quoted_string qs2 = true ->
  line_text (bare []) = [DQUOTE; DQUOTE] /\
  parseSuggestions (turn_text P body Sf)
    = map quoted qs1 ++ [] :: map quoted qs2 /\
  chatContainer (processAndDisplaySuggestions (turn_text P body Sf) st)
    = chatContainer st ++ [SuggestionsNode (map quoted qs1 ++ [] :: map quoted qs2)].
Proof.
  intros body HP HB H1 H2 Hq1 Hq2.
  assert (E : parseSuggestions (turn_text P body Sf)
              = map quoted qs1 ++ [] :: map quoted qs2).
  { unfold body. rewrite parseSuggestions_turn by assumption.
    rewrite block_suggestions_body; try assumption.
    - rewrite map_app. reflexivity.
    - rewrite forallb_app, Hq1. cbn [forallb]. rewrite Hq2. reflexivity. }
  split; [reflexivity|]. split; [exact E|].
  unfold processAndDisplaySuggestions. rewrite E.
  rewrite length_app. cbn [length].
  replace (length (map quoted qs1) + S (length (map quoted qs2)) =? 0)%nat
    with false; [reflexivity|].
  symmetry. apply Nat.eqb_neq. lia.
Qed.

(** A block of three lines whose middle line is the two quote characters. *)
Lemma empty_quoted_line_kept_witness :
  parseSuggestions
    (turn_text OLA (block_body [LF] ([bare (lit "A?")] ++ bare [] :: [bare (lit "B?")]) [LF]) [])
    = [lit "A?"; []; lit "B?"] /\
  chatContainer
    (processAndDisplaySuggestions
       (turn_text OLA (block_body [LF] ([bare (lit "A?")] ++ bare [] :: [bare (lit "B?")]) [LF]) [])
       sample_ready)
    = chatContainer sample_ready ++ [SuggestionsNode [lit "A?"; []; lit "B?"]].
Proof.
  apply (empty_quoted_line_kept OLA [LF] [bare (lit "A?")] [bare (lit "B?")]
           [LF] [] sample_ready); vm_compute; reflexivity.
Defined.

(** C6.  Without a start marker, without an end marker, or with no end
    marker after the first start marker, the parser returns no suggestion,
    and [processAndDisplaySuggestions] returns with the page unchanged. *)
Theorem parser_empty_without_block s :
  includes START_MARKER s = false \/
  includes END_MARKER s = false \/
  (exists a b, s = a ++ START_MARKER ++ b /\
               includes START_MARKER a = false /\
               includes END_MARKER b = false) ->
  parseSuggestions s = [] /\
  forall st, processAndDisplaySuggestions s st = st.
Proof.
  intros H.
  assert (E : exec_block s = None).
  { destruct H as [H|[H|(a & b & -> & Ha & Hb)]].
    - apply exec_block_without_start, H.
    - apply exec_block_without_end, H.
    - apply exec_block_reversed; assumption. }
  assert (P : parseSuggestions s = []).
  { unfold parseSuggestions. rewrite E. reflexivity. }
  split; [exact P|]. intros st.
  unfold processAndDisplaySuggestions. rewrite P. reflexivity.
Qed.

(** Reversed markers: an end marker, then a start marker. *)
Lemma parser_empty_without_block_witness :
  parseSuggestions (END_MARKER ++ lit " x " ++ START_MARKER ++ []) = [] /\
  forall st,
    processAndDisplaySuggestions
      (END_MARKER ++ lit " x " ++ START_MARKER ++ []) st = st.
Proof.
  apply (parser_empty_without_block
           (END_MARKER ++ lit " x " ++ START_MARKER ++ [])).
  right. right. exists (END_MARKER ++ lit " x "), [].
  split; [rewrite <- app_assoc; reflexivity|]. split; reflexivity.
Defined.

(** ** Stream accumulator: specification properties *)

(** C2 (the code at the scenario's mid-stream buffer).  With the start
    marker and one quoted line received and no end marker yet, nothing is
    removed: the text computed for display is the whole buffer, raw marker
    and quoted line included, and not the greeting alone. *)
Theorem displayText_midstream_shows_partial_block :
  displayText scenario_midstream = scenario_midstream /\
  includes START_MARKER (displayText scenario_midstream) = true /\
  includes (lit "Pergunta 1?") (displayText scenario_midstream) = true /\
  displayText scenario_midstream <> OLA /\
  displayText scenario_full = OLA.
Proof. vm_compute. repeat split. discriminate. Qed.

(** C7.  On a buffer without a closed block the display text is the buffer,
    trimmed. *)
Theorem displayText_without_closed_block s :
  ~ has_closed_block s -> displayText s = trim s.
Proof.
  intros H. unfold displayText. rewrite replace_blocks_none by exact H.
  reflexivity.
Qed.

Lemma displayText_without_closed_block_witness :
  ~ has_closed_block (lit "  " ++ scenario_midstream ++ [LF]) /\
  displayText (lit "  " ++ scenario_midstream ++ [LF]) = scenario_midstream.
Proof.
  assert (H : ~ has_closed_block (lit "  " ++ scenario_midstream ++ [LF])).
  { apply exec_block_none_iff. vm_compute. reflexivity. }
  split; [exact H|].
  rewrite (displayText_without_closed_block _ H). vm_compute. reflexivity.
Defined.

Lemma set_content_twice el c st :
  set_content el c (set_content el c st) = set_content el c st.
Proof.
  unfold set_content, with_container. cbn. f_equal.
  rewrite map_map. apply map_ext. intros [el' sd old|chips]; [|reflexivity].
  unfold update_content.
  destruct (Nat.eqb el' el) eqn:E; cbn; rewrite ?E; reflexivity.
Qed.

(** C8.  The display text is a function of the buffer alone: evaluated
    again on a buffer that has not grown it is the same string, and a pass
    of the streaming loop with an empty delta leaves the buffer and the
    rendered bubble as they were. *)
Theorem displayText_repeatable (bufferedText : str) :
  displayText (append bufferedText []) = displayText bufferedText /\
  forall marked_parse botMessageEl st,
    let shown :=
      set_content botMessageEl
        (InnerHTML (marked_parse (displayText bufferedText))) st in
    stream_step marked_parse botMessageEl (bufferedText, shown) []
    = (bufferedText, shown).
Proof.
  split.
  - unfold append. rewrite app_nil_r. reflexivity.
  - intros mp el st. cbv zeta. unfold stream_step, append. cbn [fst snd].
    rewrite app_nil_r, set_content_twice. reflexivity.
Qed.

(** C3.  In a turn with two or more blocks the parser returns the
    suggestions of the first block only, the same as if the turn ended with
    that block, and the display text is what lies outside the blocks,
    concatenated and trimmed. *)
Theorem first_block_honored_all_blocks_hidden p1 b1 p2 b2 more tail :
  let blocks := (p1, b1) :: (p2, b2) :: more in
  forallb clean_block blocks = true ->
  ~ has_closed_block tail ->
  parseSuggestions (assemble blocks tail) = block_suggestions b1 /\
  parseSuggestions (assemble blocks tail) = parseSuggestions (turn_text p1 b1 []) /\
  displayText (assemble blocks tail) = trim (concat (map fst blocks) ++ tail).
Proof.
  intros blocks H Ht.
  assert (H1 : clean_block (p1, b1) = true).
  { cbn [blocks forallb] in H. apply andb_prop in H as [H _]. exact H. }
  unfold clean_block in H1. apply andb_prop in H1 as [Hp Hb].
  apply negb_true_iff in Hp, Hb. cbn [fst snd] in Hp, Hb.
  split; [|split].
  - unfold blocks. cbn [assemble]. apply parseSuggestions_turn; assumption.
  - unfold blocks. cbn [assemble].
    rewrite !parseSuggestions_turn by assumption. reflexivity.
  - unfold displayText. rewrite replace_blocks_assemble by assumption.
    reflexivity.
Qed.

(** Two blocks with text before, between and after them. *)
Lemma first_block_honored_all_blocks_hidden_witness :
  let blocks :=
    [(lit "Um. ", [LF; DQUOTE] ++ lit "A?" ++ [DQUOTE; LF]);
     (lit "Dois. ", [LF; DQUOTE] ++ lit "B?" ++ [DQUOTE; LF])] in
  parseSuggestions (assemble blocks (lit "Fim.")) = [lit "A?"] /\
  displayText (assemble blocks (lit "Fim.")) = lit "Um. Dois. Fim.".
Proof.
  intros blocks.
  assert (Ht : ~ has_closed_block (lit "Fim.")).
  { apply exec_block_none_iff. vm_compute. reflexivity. }
  destruct (first_block_honored_all_blocks_hidden
              (lit "Um. ") ([LF; DQUOTE] ++ lit "A?" ++ [DQUOTE; LF])
              (lit "Dois. ") ([LF; DQUOTE] ++ lit "B?" ++ [DQUOTE; LF])
              [] (lit "Fim.") eq_refl Ht) as (E1 & _ & E3).
  subst blocks. split.
  - etransitivity; [exact E1|]. vm_compute. reflexivity.
  - etransitivity; [exact E3|]. vm_compute. reflexivity.
Defined.

(** ** Chat UI controller *)

Lemma update_content_over el c1 c2 n :
  update_content el c2 (update_content el c1 n) = update_content el c2 n.
Proof.
  destruct n as [el' sd old|chips]; [|reflexivity]. unfold update_content.
  destruct (Nat.eqb el' el) eqn:E; cbn; rewrite ?E; reflexivity.
Qed.

Lemma set_content_over el c1 c2 st :
  set_content el c2 (set_content el c1 st) = set_content el c2 st.
Proof.
  unfold set_content, with_container. cbn. f_equal.
  rewrite map_map. apply map_ext. intros n. apply update_content_over.
Qed.

Lemma update_fresh k el c ns :
  els_below k ns = true -> (k <= el)%nat -> map (update_content el c) ns = ns.
Proof.
  intros H Hk. induction ns as [|n ns IH]; [reflexivity|].
  cbn [els_below forallb] in H. apply andb_prop in H as [Hn H].
  cbn [map]. rewrite (IH H). f_equal.
  destruct n as [el' sd old|chips]; [|reflexivity].
  apply Nat.ltb_lt in Hn. unfold update_content.
  replace (Nat.eqb el' el) with false; [reflexivity|].
  symmetry. apply Nat.eqb_neq. lia.
Qed.

Lemma els_below_app k a b :
  els_below k (a ++ b) = els_below k a && els_below k b.
Proof. apply forallb_app. Qed.

Lemma els_below_mono k k' ns :
  (k <= k')%nat -> els_below k ns = true -> els_below k' ns = true.
Proof.
  intros Hk. unfold els_below. rewrite !forallb_forall. intros H n Hn.
  specialize (H n Hn). destruct n as [el sd c|chips]; [|reflexivity].
  apply Nat.ltb_lt in H. apply Nat.ltb_lt. lia.
Qed.

Lemma els_below_update k el c ns :
  els_below k (map (update_content el c) ns) = els_below k ns.
Proof.
  induction ns as [|n ns IH]; [reflexivity|].
  cbn [map els_below forallb]. fold (els_below k ns).
  fold (els_below k (map (update_content el c) ns)). rewrite IH. f_equal.
  destruct n as [el' sd old|chips]; [|reflexivity].
  cbn [update_content]. destruct (Nat.eqb el' el); reflexivity.
Qed.

Lemma els_below_remove k ns :
  els_below k ns = true -> els_below k (remove_first_suggestions ns) = true.
Proof.
  induction ns as [|n ns IH]; [reflexivity|]. intros H.
  cbn [els_below forallb] in H. apply andb_prop in H as [Hn H].
  destruct n as [el sd c|chips]; cbn [remove_first_suggestions].
  - cbn [els_below forallb]. rewrite Hn. apply IH, H.
  - exact H.
Qed.

(** Removing the first suggestion container never touches a bubble appended
    after it. *)
Lemma remove_first_suggestions_snoc ns el sd c :
  remove_first_suggestions (ns ++ [MessageNode el sd c])
  = remove_first_suggestions ns ++ [MessageNode el sd c].
Proof.
  induction ns as [|n ns IH]; [reflexivity|].
  destruct n as [el' sd' c'|chips]; cbn [app remove_first_suggestions].
  - rewrite IH. reflexivity.
  - reflexivity.
Qed.

Lemma find_updated k ns sd c0 c :
  els_below k ns = true ->
  find (is_el k) (map (update_content k c) (ns ++ [MessageNode k sd c0]))
  = Some (MessageNode k sd c).
Proof.
  intros H. induction ns as [|n ns IH].
  - cbn. rewrite Nat.eqb_refl. cbn. rewrite Nat.eqb_refl. reflexivity.
  - cbn [els_below forallb] in H. apply andb_prop in H as [Hn H].
    cbn [app map find]. destruct n as [el sd' c'|chips].
    + apply Nat.ltb_lt in Hn. cbn [update_content].
      replace (Nat.eqb el k) with false by (symmetry; apply Nat.eqb_neq; lia).
      cbn [is_el].
      replace (Nat.eqb el k) with false by (symmetry; apply Nat.eqb_neq; lia).
      apply IH, H.
    + cbn [update_content is_el]. apply IH, H.
Qed.

Lemma includes_app_middle p a b : includes p (a ++ p ++ b) = true.
Proof. apply includes_iff. exists a, b. reflexivity. Qed.

Section ControllerProperties.

Variable marked_parse : str -> str.
Variable systemInstruction : str.

(** The guard of line 249. *)
Lemma send_guard userMessage remote st :
  userMessage = [] \/ chat st = None ->
  sendMessageAndStreamResponse marked_parse userMessage remote st = Normal st.
Proof.
  intros [-> | H]; unfold sendMessageAndStreamResponse.
  - reflexivity.
  - rewrite H. rewrite orb_true_r. reflexivity.
Qed.

(** What the streaming loop leaves: the deltas appended in order, and the
    bubble rendered from the last buffer. *)
Lemma stream_fold el cs b s :
  fold_left (stream_step marked_parse el) cs (b, s)
  = (b ++ concat cs,
     match cs with
     | [] => s
     | _ :: _ =>
         set_content el
           (InnerHTML (marked_parse (displayText (b ++ concat cs)))) s
     end).
Proof.
  revert b s. induction cs as [|c cs IH]; intros b s.
  - cbn. rewrite app_nil_r. reflexivity.
  - cbn [fold_left]. unfold stream_step at 2. cbn [fst snd]. unfold append.
    rewrite IH. cbn [concat]. rewrite <- app_assoc. f_equal.
    destruct cs as [|c' cs].
    + cbn [concat]. rewrite ?app_nil_r. reflexivity.
    + apply set_content_over.
Qed.

Lemma handler_over el r y e s :
  set_content el r
    (with_logs (remoteCalls (set_content el y s))
               (console (set_content el y s) ++ [e]) (set_content el y s))
  = set_content el r (with_logs (remoteCalls s) (console s ++ [e]) s).
Proof.
  unfold set_content, with_container, with_logs. cbn. f_equal.
  rewrite map_map. apply map_ext. intros n. apply update_content_over.
Qed.

Lemma send_prologue_el userMessage st :
  fst (send_prologue userMessage st) = S (nextEl st).
Proof. reflexivity. Qed.

Lemma send_prologue_container userMessage st :
  chatContainer (snd (send_prologue userMessage st))
  = remove_first_suggestions
      (map (update_content (nextEl st) (TextContent userMessage))
           (chatContainer st ++ [MessageNode (nextEl st) user Blank])
       ++ [MessageNode (S (nextEl st)) bot Blank]).
Proof. reflexivity. Qed.

(** A failing stream leaves the page as if no chunk had been received. *)
Lemma send_failure_forgets_chunks userMessage cs e st :
  sendMessageAndStreamResponse marked_parse userMessage {| chunks := cs; failure := Some e |} st
  = sendMessageAndStreamResponse marked_parse userMessage {| chunks := []; failure := Some e |} st.
Proof.
  unfold sendMessageAndStreamResponse.
  destruct (is_empty userMessage || negb (is_some (chat st))); [reflexivity|].
  destruct (send_prologue userMessage st) as [el st5].
  unfold try_catch_finally, send_try. cbn [chunks failure].
  rewrite !stream_fold. destruct cs as [|c cs]; [reflexivity|].
  cbv beta iota. unfold send_catch. rewrite handler_over. reflexivity.
Qed.

(** No throw leaves [sendMessageAndStreamResponse]: whatever the provider
    does, the function completes normally. *)
Lemma send_completes userMessage remote st :
  completed (sendMessageAndStreamResponse marked_parse userMessage remote st) = true.
Proof.
  unfold sendMessageAndStreamResponse.
  destruct (is_empty userMessage || negb (is_some (chat st))); [reflexivity|].
  destruct (send_prologue userMessage st) as [el st5].
  unfold try_catch_finally, send_try.
  rewrite stream_fold. cbv beta iota.
  destruct (failure remote); reflexivity.
Qed.

(** After a failure with the guard passed: the [catch] clause ran on the
    page the prologue left (with the call logged), then the [finally]
    clause. *)
Lemma send_failure_state userMessage e c st :
  chat st = Some c -> userMessage <> [] ->
  sendMessageAndStreamResponse marked_parse userMessage {| chunks := []; failure := Some e |} st
  = Normal
      (send_finally
         (final_state
            (send_catch (S (nextEl st)) e
               (with_logs
                  (remoteCalls (snd (send_prologue userMessage st))
                   ++ [userMessage])
                  (console (snd (send_prologue userMessage st)))
                  (snd (send_prologue userMessage st)))))).
Proof.
  intros Hc Hm. unfold sendMessageAndStreamResponse.
  destruct userMessage as [|x m]; [congruence|]. rewrite Hc.
  cbn [is_empty is_some negb orb].
  rewrite (surjective_pairing (send_prologue (x :: m) st)).
  rewrite send_prologue_el.
  generalize (snd (send_prologue (x :: m) st)). intros s5.
  unfold try_catch_finally, send_try, send_catch.
  cbn [chunks failure fold_left final_state]. reflexivity.
Qed.

Lemma completed_normal r : completed r = true -> r = Normal (final_state r).
Proof. destruct r; [reflexivity|discriminate]. Qed.

Lemma with_logs_container calls errs s :
  chatContainer (with_logs calls errs s) = chatContainer s.
Proof. reflexivity. Qed.

Lemma send_finally_container s : chatContainer (send_finally s) = chatContainer s.
Proof. reflexivity. Qed.

Lemma send_finally_enables s :
  chatInput_disabled (send_finally s) = false /\
  sendButton_disabled (send_finally s) = false.
Proof. split; reflexivity. Qed.

Lemma send_catch_container el e s :
  chatContainer (final_state (send_catch el e s))
  = map (update_content el
           (InnerHTML (RETRY_PREFIX ++ errorMessage e ++ CODE_CLOSE)))
        (chatContainer s).
Proof. reflexivity. Qed.

(** With a falsy key the [try] block throws at line 337 and the [catch]
    clause of lines 347-355 runs on the page as it was. *)
Lemma initializeApp_absent API_KEY st :
  key_absent API_KEY = true ->
  initializeApp marked_parse systemInstruction API_KEY st
  = Normal
      (with_input (chatInput_value st) true DISABLED_PLACEHOLDER
         (chatInput_focused st)
         (with_sendButton true (sendButton_innerHTML st)
            (set_content (nextEl st) (InnerHTML CONFIG_ERROR_HTML)
               (snd (appendMessage bot
                       (with_logs (remoteCalls st)
                          (console st ++ [ErrorObject MISSING_KEY]) st)))))).
Proof.
  intros H. unfold initializeApp, try_catch_finally.
  destruct API_KEY as [[|x k]|]; try discriminate H; reflexivity.
Qed.

Lemma send_all_without_session attempts st :
  chat st = None -> send_all marked_parse attempts st = Normal st.
Proof.
  intros H. induction attempts as [|[m r] rest IH]; [reflexivity|].
  cbn [send_all]. rewrite send_guard by (right; exact H). exact IH.
Qed.

(** *** Element identities stay fresh *)

Lemma fresh_appendMessage sd st :
  fresh_els st = true -> fresh_els (snd (appendMessage sd st)) = true.
Proof.
  unfold fresh_els. intros H.
  change (els_below (S (nextEl st))
            (chatContainer st ++ [MessageNode (nextEl st) sd Blank]) = true).
  rewrite els_below_app, (els_below_mono (nextEl st)) by (exact H || lia).
  cbn [els_below forallb andb]. apply andb_true_intro. split; [|reflexivity].
  apply Nat.ltb_lt. lia.
Qed.

Lemma fresh_set_content el c st :
  fresh_els st = true -> fresh_els (set_content el c st) = true.
Proof.
  unfold fresh_els. intros H.
  change (els_below (nextEl st)
            (map (update_content el c) (chatContainer st)) = true).
  rewrite els_below_update. exact H.
Qed.

Lemma fresh_processAndDisplaySuggestions fullResponse st :
  fresh_els st = true ->
  fresh_els (processAndDisplaySuggestions fullResponse st) = true.
Proof.
  unfold processAndDisplaySuggestions. intros H.
  destruct (length (parseSuggestions fullResponse) =? 0)%nat; [exact H|].
  unfold fresh_els in *.
  change (els_below (nextEl st)
            (chatContainer st
             ++ [SuggestionsNode (parseSuggestions fullResponse)]) = true).
  rewrite els_below_app, H. reflexivity.
Qed.

Lemma fresh_send_prologue userMessage st :
  fresh_els st = true -> fresh_els (snd (send_prologue userMessage st)) = true.
Proof.
  intros H. unfold fresh_els.
  change (nextEl (snd (send_prologue userMessage st))) with (S (S (nextEl st))).
  rewrite send_prologue_container. apply els_below_remove.
  rewrite els_below_app, els_below_update.
  rewrite (els_below_mono (S (nextEl st)) (S (S (nextEl st)))).
  - cbn [els_below forallb andb]. apply andb_true_intro.
    split; [|reflexivity]. apply Nat.ltb_lt. lia.
  - lia.
  - apply (fresh_appendMessage user st H).
Qed.

(** Whatever the provider does, a send leaves every bubble older than
    [nextEl]: the hypothesis [fresh_els] holds in every state the page can
    reach from a fresh one. *)
Lemma fresh_send userMessage remote st :
  fresh_els st = true ->
  fresh_els (final_state (sendMessageAndStreamResponse marked_parse userMessage remote st)) = true.
Proof.
  intros H. unfold sendMessageAndStreamResponse.
  destruct (is_empty userMessage || negb (is_some (chat st))); [exact H|].
  pose proof (fresh_send_prologue userMessage st H) as H5.
  destruct (send_prologue userMessage st) as [el st5]. cbn [snd] in H5.
  unfold try_catch_finally, send_try. rewrite stream_fold. cbv beta iota.
  assert (H2 : fresh_els
                 match chunks remote with
                 | [] => with_logs (remoteCalls st5 ++ [userMessage])
                           (console st5) st5
                 | _ :: _ =>
                     set_content el
                       (InnerHTML
                          (marked_parse
                             (displayText ([] ++ concat (chunks remote)))))
                       (with_logs (remoteCalls st5 ++ [userMessage])
                          (console st5) st5)
                 end = true).
  { destruct (chunks remote); [exact H5|]. apply fresh_set_content. exact H5. }
  revert H2.
  generalize (match chunks remote with
              | [] => with_logs (remoteCalls st5 ++ [userMessage])
                        (console st5) st5
              | _ :: _ =>
                  set_content el
                    (InnerHTML
                       (marked_parse
                          (displayText ([] ++ concat (chunks remote)))))
                    (with_logs (remoteCalls st5 ++ [userMessage])
                       (console st5) st5)
              end).
  intros s2 H2.
  destruct (failure remote) as [e|].
  - unfold send_catch. cbn [final_state].
    apply (fresh_set_content el _
             (with_logs (remoteCalls s2) (console s2 ++ [e]) s2) H2).
  - cbn [final_state].
    apply (fresh_processAndDisplaySuggestions _ s2 H2).
Qed.

Lemma fresh_initializeApp API_KEY st :
  fresh_els st = true ->
  fresh_els (final_state
               (initializeApp marked_parse systemInstruction API_KEY st)) = true.
Proof.
  intros H.
  assert (A : forall s c, fresh_els s = true ->
              fresh_els (set_content (nextEl s) c (snd (appendMessage bot s)))
              = true).
  { intros s c Hs. apply fresh_set_content, fresh_appendMessage, Hs. }
  unfold initializeApp, try_catch_finally.
  destruct API_KEY as [[|x k]|]; cbn [is_empty final_state].
  - apply (A (with_logs (remoteCalls st)
                (console st ++ [ErrorObject MISSING_KEY]) st)
             (InnerHTML CONFIG_ERROR_HTML) H).
  - apply (A (with_chat _ st) (InnerHTML (marked_parse GREETING)) H).
  - apply (A (with_logs (remoteCalls st)
                (console st ++ [ErrorObject MISSING_KEY]) st)
             (InnerHTML CONFIG_ERROR_HTML) H).
Qed.

End ControllerProperties.

(** ** Chat UI controller: specification properties *)

(** C10.  Called with the empty message, or while no session exists, the
    send operation returns at its first line: the page, the logs of remote
    calls and errors, and every control are as before. *)
Theorem send_noop_without_message_or_session marked_parse userMessage remote st :
  userMessage = [] \/ chat st = None ->
  sendMessageAndStreamResponse marked_parse userMessage remote st = Normal st.
Proof. apply send_guard. Qed.

Lemma send_noop_without_message_or_session_witness :
  sendMessageAndStreamResponse (fun s => s) (lit "Pergunta")
    {| chunks := [lit "Resposta"]; failure := None |} sample_disabled
  = Normal sample_disabled.
Proof.
  apply (send_noop_without_message_or_session (fun s => s) (lit "Pergunta")
           {| chunks := [lit "Resposta"]; failure := None |} sample_disabled).
  right. reflexivity.
Defined.

(** The submit handler with a blank input returns before touching the form. *)
Lemma handleFormSubmit_blank marked_parse remote st :
  trim (chatInput_value st) = [] ->
  handleFormSubmit marked_parse remote st = Normal st.
Proof. intros H. unfold handleFormSubmit. rewrite H. reflexivity. Qed.

(** The submit handler without a session: the form is reset, and that is
    all. *)
Lemma handleFormSubmit_without_session marked_parse remote st :
  chat st = None -> trim (chatInput_value st) <> [] ->
  handleFormSubmit marked_parse remote st
  = Normal (with_input (chatInput_defaultValue st) (chatInput_disabled st)
              (chatInput_placeholder st) (chatInput_focused st) st).
Proof.
  intros Hc Hv. unfold handleFormSubmit.
  destruct (trim (chatInput_value st)) as [|x m]; [congruence|].
  cbn [is_empty]. apply send_guard. right. exact Hc.
Qed.

(** C4.  Started without a key, the application ends disabled: no session,
    the input and the send button disabled, one configuration-error bubble
    appended to the log, no remote call made, and any run of send attempts
    afterwards leaves everything as it is. *)
Theorem init_without_key_disables marked_parse systemInstruction API_KEY st :
  key_absent API_KEY = true -> chat st = None -> fresh_els st = true ->
  let r := initializeApp marked_parse systemInstruction API_KEY st in
  let st' := final_state r in
  r = Normal st' /\
  chat st' = None /\
  chatInput_disabled st' = true /\ sendButton_disabled st' = true /\
  chatContainer st'
    = chatContainer st
      ++ [MessageNode (nextEl st) bot (InnerHTML CONFIG_ERROR_HTML)] /\
  remoteCalls st' = remoteCalls st /\
  forall attempts,
    send_all marked_parse attempts st' = Normal st' /\
    remoteCalls (final_state (send_all marked_parse attempts st'))
    = remoteCalls st.
Proof.
  intros Hk Hc Hf r st'. subst st' r.
  rewrite (initializeApp_absent marked_parse systemInstruction API_KEY st Hk).
  cbn [final_state].
  assert (C : chat (with_input (chatInput_value st) true DISABLED_PLACEHOLDER
           (chatInput_focused st)
           (with_sendButton true (sendButton_innerHTML st)
              (set_content (nextEl st) (InnerHTML CONFIG_ERROR_HTML)
                 (snd (appendMessage bot
                         (with_logs (remoteCalls st)
                            (console st ++ [ErrorObject MISSING_KEY]) st))))))
              = None) by exact Hc.
  repeat split; try reflexivity; try exact C.
  - change (map (update_content (nextEl st) (InnerHTML CONFIG_ERROR_HTML))
              (chatContainer st ++ [MessageNode (nextEl st) bot Blank])
            = chatContainer st
              ++ [MessageNode (nextEl st) bot (InnerHTML CONFIG_ERROR_HTML)]).
    rewrite map_app, (update_fresh (nextEl st)) by (exact Hf || lia).
    cbn [map update_content]. rewrite Nat.eqb_refl. reflexivity.
  - apply send_all_without_session, C.
  - rewrite send_all_without_session by exact C. reflexivity.
Qed.

Lemma init_without_key_disables_witness :
  initializeApp (fun s => s) (lit "policy") (Some []) sample_page
    = Normal sample_disabled /\
  chatInput_disabled sample_disabled = true /\
  sendButton_disabled sample_disabled = true /\
  chatContainer sample_disabled
    = [MessageNode 0 bot (InnerHTML CONFIG_ERROR_HTML)] /\
  remoteCalls sample_disabled = [].
Proof.
  destruct (init_without_key_disables (fun s => s) (lit "policy") (Some [])
              sample_page eq_refl eq_refl eq_refl)
    as (E & _ & D1 & D2 & L & R & _).
  split; [exact E|]. split; [exact D1|]. split; [exact D2|].
  split; [exact L|exact R].
Defined.

(** C5 (as stated, refuted).  The stream fails after the chunk "Partial
    answer" with a thrown value that is not an [Error] instance, here the
    string "quota exceeded": the send completes and the bot bubble holds
    the retry message with the fixed text "An unknown error occurred.", in
    which the text of the thrown value does not occur. *)
Lemma stream_failure_text_counterexample :
  completed
    (sendMessageAndStreamResponse (fun s => s) (lit "Pergunta")
       {| chunks := [lit "Partial answer"];
          failure := Some (OtherValue (lit "quota exceeded")) |}
       sample_ready) = true /\
  content_of 2
    (final_state
       (sendMessageAndStreamResponse (fun s => s) (lit "Pergunta")
          {| chunks := [lit "Partial answer"];
             failure := Some (OtherValue (lit "quota exceeded")) |}
          sample_ready))
  = Some (InnerHTML (RETRY_PREFIX ++ UNKNOWN_ERROR ++ CODE_CLOSE)) /\
  includes (lit "quota exceeded") (RETRY_PREFIX ++ UNKNOWN_ERROR ++ CODE_CLOSE)
  = false.
Proof. vm_compute. repeat split. Qed.

(** C5 (amended).  When the stream of a send fails after any chunks, the
    send completes normally; the bot bubble holds the retry message, which
    includes the message of the error when the thrown value is an [Error]
    and the fixed text "An unknown error occurred." otherwise; the input
    and the send button are enabled again; and the page is the one a
    failure before the first chunk leaves, so nothing of the partial buffer
    is shown. *)
Theorem stream_failure_reported marked_parse userMessage cs e c st :
  chat st = Some c -> userMessage <> [] -> fresh_els st = true ->
  let r := sendMessageAndStreamResponse marked_parse userMessage
             {| chunks := cs; failure := Some e |} st in
  let st' := final_state r in
  let html := RETRY_PREFIX ++ errorMessage e ++ CODE_CLOSE in
  r = Normal st' /\
  content_of (S (nextEl st)) st' = Some (InnerHTML html) /\
  (forall m, e = ErrorObject m -> includes m html = true) /\
  (forall v, e = OtherValue v ->
             html = RETRY_PREFIX ++ UNKNOWN_ERROR ++ CODE_CLOSE) /\
  chatInput_disabled st' = false /\ sendButton_disabled st' = false /\
  st' = final_state
          (sendMessageAndStreamResponse marked_parse userMessage
             {| chunks := []; failure := Some e |} st).
Proof.
  intros Hc Hm Hf r st' html. subst st' r.
  split; [apply completed_normal, send_completes|].
  rewrite send_failure_forgets_chunks.
  rewrite (send_failure_state marked_parse userMessage e c st Hc Hm).
  cbn [final_state].
  split; [|split; [|split; [|split; [|split]]]].
  - unfold content_of.
    rewrite send_finally_container.
    rewrite send_catch_container, with_logs_container.
    rewrite send_prologue_container, remove_first_suggestions_snoc.
    rewrite find_updated; [reflexivity|].
    apply els_below_remove. rewrite els_below_update, els_below_app.
    rewrite (els_below_mono (nextEl st) (S (nextEl st))) by (exact Hf || lia).
    cbn [els_below forallb andb]. apply andb_true_intro. split; [|reflexivity].
    apply Nat.ltb_lt. lia.
  - intros m ->. cbn [errorMessage] in html. apply includes_app_middle.
  - intros v ->. reflexivity.
  - apply send_finally_enables.
  - apply send_finally_enables.
  - reflexivity.
Qed.

(** A stream that throws an [Error] after "Partial answer". *)
Lemma stream_failure_reported_witness :
  content_of 2
    (final_state
       (sendMessageAndStreamResponse (fun s => s) (lit "Pergunta")
          {| chunks := [lit "Partial answer"];
             failure := Some (ErrorObject (lit "503 Service Unavailable")) |}
          sample_ready))
  = Some (InnerHTML
            (RETRY_PREFIX ++ lit "503 Service Unavailable" ++ CODE_CLOSE)) /\
  chatInput_disabled
    (final_state
       (sendMessageAndStreamResponse (fun s => s) (lit "Pergunta")
          {| chunks := [lit "Partial answer"];
             failure := Some (ErrorObject (lit "503 Service Unavailable")) |}
          sample_ready)) = false.
Proof.
  destruct (stream_failure_reported (fun s => s) (lit "Pergunta")
              [lit "Partial answer"]
              (ErrorObject (lit "503 Service Unavailable"))
              {| chat_apiKey := lit "key"; chat_model := MODEL;
                 chat_instruction := lit "policy" |}
              sample_ready eq_refl ltac:(discriminate) eq_refl)
    as (_ & H & _ & _ & D & _).
  split; [exact H|exact D].
Defined.


(** * Further properties of the controller *)

(** ** Anatomy of a turn *)

Lemma send_anatomy marked_parse userMessage remote c st :
  chat st = Some c -> userMessage <> [] ->
  sendMessageAndStreamResponse marked_parse userMessage remote st
  = Normal (send_finally (before_finally marked_parse userMessage remote st)).
Proof.
  intros Hc Hm. unfold sendMessageAndStreamResponse.
  destruct userMessage as [|x m]; [congruence|]. rewrite Hc.
  cbn [is_empty is_some negb orb].
  rewrite (surjective_pairing (send_prologue (x :: m) st)).
  rewrite send_prologue_el.
  unfold before_finally, after_stream.
  generalize (snd (send_prologue (x :: m) st)). intros p.
  unfold try_catch_finally, send_try. rewrite stream_fold. cbn [app].
  cbv beta iota.
  destruct (failure remote) as [e|]; [unfold send_catch|];
    destruct (chunks remote); reflexivity.
Qed.

Lemma update_last k x ns sd y :
  els_below k ns = true ->
  map (update_content k x) (ns ++ [MessageNode k sd y])
  = ns ++ [MessageNode k sd x].
Proof.
  intros H. rewrite map_app, (update_fresh k) by (exact H || lia).
  cbn [map update_content]. rewrite Nat.eqb_refl. reflexivity.
Qed.

Lemma els_below_snoc_msg k ns sd y :
  els_below k ns = true ->
  els_below (S k) (ns ++ [MessageNode k sd y]) = true.
Proof.
  intros H. rewrite els_below_app, (els_below_mono k (S k)) by (exact H || lia).
  cbn [els_below forallb andb]. apply andb_true_intro. split; [|reflexivity].
  apply Nat.ltb_lt. lia.
Qed.

(** After the prologue: the previous suggestion container is gone and the
    two bubbles of the turn are at the end. *)
Lemma send_prologue_page userMessage st :
  fresh_els st = true ->
  chatContainer (snd (send_prologue userMessage st))
  = (remove_first_suggestions (chatContainer st)
     ++ [MessageNode (nextEl st) user (TextContent userMessage)])
    ++ [MessageNode (S (nextEl st)) bot Blank].
Proof.
  intros H. rewrite send_prologue_container.
  rewrite (update_last (nextEl st)) by exact H.
  rewrite !remove_first_suggestions_snoc. reflexivity.
Qed.

Lemma after_stream_page marked_parse userMessage remote st :
  fresh_els st = true ->
  chatContainer (after_stream marked_parse userMessage remote st)
  = (remove_first_suggestions (chatContainer st)
     ++ [MessageNode (nextEl st) user (TextContent userMessage)])
    ++ [MessageNode (S (nextEl st)) bot (bot_body marked_parse (chunks remote))].
Proof.
  intros H. unfold after_stream, bot_body.
  destruct (chunks remote) as [|c cs].
  - rewrite with_logs_container. apply send_prologue_page, H.
  - change (map (update_content (S (nextEl st))
                   (InnerHTML (marked_parse (displayText (concat (c :: cs))))))
              (chatContainer (snd (send_prologue userMessage st)))
            = (remove_first_suggestions (chatContainer st)
               ++ [MessageNode (nextEl st) user (TextContent userMessage)])
              ++ [MessageNode (S (nextEl st)) bot
                    (InnerHTML (marked_parse (displayText (concat (c :: cs)))))]).
    rewrite send_prologue_page by exact H. apply update_last.
    apply els_below_snoc_msg, els_below_remove, H.
Qed.

Lemma processAndDisplaySuggestions_container fullResponse st :
  chatContainer (processAndDisplaySuggestions fullResponse st)
  = chatContainer st ++ chips_of fullResponse.
Proof.
  unfold processAndDisplaySuggestions, chips_of.
  destruct (length (parseSuggestions fullResponse) =? 0)%nat.
  - rewrite app_nil_r. reflexivity.
  - reflexivity.
Qed.

Lemma before_finally_page marked_parse userMessage remote st :
  fresh_els st = true ->
  chatContainer (before_finally marked_parse userMessage remote st)
  = remove_first_suggestions (chatContainer st)
    ++ turn_result marked_parse (nextEl st) userMessage remote.
Proof.
  intros H. unfold before_finally, turn_result.
  destruct (failure remote) as [e|].
  - rewrite send_catch_container, after_stream_page by exact H.
    rewrite update_last
      by (apply els_below_snoc_msg, els_below_remove, H).
    rewrite <- app_assoc. reflexivity.
  - rewrite processAndDisplaySuggestions_container, after_stream_page by exact H.
    rewrite <- !app_assoc. reflexivity.
Qed.

Lemma frame_processAndDisplaySuggestions fullResponse st :
  frame (processAndDisplaySuggestions fullResponse st) = frame st /\
  remoteCalls (processAndDisplaySuggestions fullResponse st) = remoteCalls st /\
  console (processAndDisplaySuggestions fullResponse st) = console st.
Proof.
  unfold processAndDisplaySuggestions.
  destruct (length (parseSuggestions fullResponse) =? 0)%nat;
    repeat split.
Qed.

Lemma after_stream_frame marked_parse userMessage remote st :
  frame (after_stream marked_parse userMessage remote st) = frame st /\
  remoteCalls (after_stream marked_parse userMessage remote st)
  = remoteCalls st ++ [userMessage] /\
  console (after_stream marked_parse userMessage remote st) = console st.
Proof.
  unfold after_stream. destruct (chunks remote); repeat split.
Qed.

Lemma before_finally_frame marked_parse userMessage remote st :
  frame (before_finally marked_parse userMessage remote st) = frame st /\
  remoteCalls (before_finally marked_parse userMessage remote st)
  = remoteCalls st ++ [userMessage] /\
  console (before_finally marked_parse userMessage remote st)
  = console st ++ match failure remote with Some e => [e] | None => [] end.
Proof.
  destruct (after_stream_frame marked_parse userMessage remote st)
    as (F & R & C).
  unfold before_finally. destruct (failure remote) as [e|].
  - change (frame (after_stream marked_parse userMessage remote st) = frame st /\
            remoteCalls (after_stream marked_parse userMessage remote st)
            = remoteCalls st ++ [userMessage] /\
            console (after_stream marked_parse userMessage remote st) ++ [e]
            = console st ++ [e]).
    rewrite C. auto.
  - destruct (frame_processAndDisplaySuggestions (concat (chunks remote))
                (after_stream marked_parse userMessage remote st))
      as (F' & R' & C').
    rewrite F', R', C', app_nil_r. auto.
Qed.

(** ** The page after a turn *)

Lemma send_container marked_parse userMessage remote c st :
  chat st = Some c -> userMessage <> [] -> fresh_els st = true ->
  chatContainer
    (final_state
       (sendMessageAndStreamResponse marked_parse userMessage remote st))
  = remove_first_suggestions (chatContainer st)
    ++ turn_result marked_parse (nextEl st) userMessage remote.
Proof.
  intros Hc Hm Hf.
  rewrite (send_anatomy marked_parse userMessage remote c st Hc Hm).
  cbn [final_state]. rewrite send_finally_container.
  apply before_finally_page, Hf.
Qed.


(** X2.  A send that passes its guard, whatever the provider does, ends
    with the input and the send button enabled, the button showing its
    icon again, the input focused, the session, the typed text and the
    placeholder untouched, exactly one remote call logged with the message,
    and the thrown value, if any, logged to the console. *)
Theorem send_restores_controls marked_parse userMessage remote c st :
  chat st = Some c -> userMessage <> [] ->
  let r := sendMessageAndStreamResponse marked_parse userMessage remote st in
  let st' := final_state r in
  completed r = true /\
  chatInput_disabled st' = false /\ sendButton_disabled st' = false /\
  sendButton_innerHTML st' = sendButtonIcon st /\
  chatInput_focused st' = true /\
  frame st' = frame st /\
  remoteCalls st' = remoteCalls st ++ [userMessage] /\
  console st'
  = console st ++ match failure remote with Some e => [e] | None => [] end.
Proof.
  intros Hc Hm r st'. subst st' r.
  rewrite (send_anatomy marked_parse userMessage remote c st Hc Hm).
  cbn [final_state completed].
  destruct (before_finally_frame marked_parse userMessage remote st)
    as (F & R & C).
  revert F R C.
  generalize (before_finally marked_parse userMessage remote st). intros s F R C.
  split; [reflexivity|]. split; [reflexivity|]. split; [reflexivity|].
  split.
  { change (sendButtonIcon s = sendButtonIcon st).
    unfold frame in F. congruence. }
  split; [reflexivity|].
  split; [exact F|]. split; [exact R|exact C].
Qed.


Lemma send_restores_controls_witness :
  chatInput_disabled
    (final_state
       (sendMessageAndStreamResponse (fun s => s) (lit "Pergunta")
          {| chunks := [lit "Resposta"]; failure := None |} sample_ready))
  = false /\
  remoteCalls
    (final_state
       (sendMessageAndStreamResponse (fun s => s) (lit "Pergunta")
          {| chunks := [lit "Resposta"]; failure := None |} sample_ready))
  = [lit "Pergunta"].
Proof.
  destruct (send_restores_controls (fun s => s) (lit "Pergunta")
              {| chunks := [lit "Resposta"]; failure := None |}
              {| chat_apiKey := lit "key"; chat_model := MODEL;
                 chat_instruction := lit "policy" |}
              sample_ready eq_refl ltac:(discriminate))
    as (_ & D & _ & _ & _ & _ & R & _).
  split; [exact D|exact R].
Defined.






(** ** Suggestion containers and message bubbles across turns *)

Lemma count_suggestions_app a b :
  count_suggestions (a ++ b) = (count_suggestions a + count_suggestions b)%nat.
Proof. unfold count_suggestions. rewrite filter_app. apply length_app. Qed.

Lemma count_suggestions_update el c ns :
  count_suggestions (map (update_content el c) ns) = count_suggestions ns.
Proof.
  unfold count_suggestions. induction ns as [|n ns IH]; [reflexivity|].
  cbn [map filter]. destruct n as [el' sd old|chips].
  - cbn [update_content]. destruct (Nat.eqb el' el); cbn [is_suggestions]; exact IH.
  - cbn [update_content is_suggestions length]. rewrite IH. reflexivity.
Qed.

Lemma count_suggestions_remove ns :
  count_suggestions (remove_first_suggestions ns) = pred (count_suggestions ns).
Proof.
  unfold count_suggestions. induction ns as [|n ns IH]; [reflexivity|].
  destruct n as [el sd c|chips]; cbn [remove_first_suggestions filter is_suggestions].
  - exact IH.
  - reflexivity.
Qed.

Lemma count_suggestions_chips t : (count_suggestions (chips_of t) <= 1)%nat.
Proof.
  unfold chips_of. destruct (length (parseSuggestions t) =? 0)%nat; cbn; lia.
Qed.

Lemma before_finally_count marked_parse userMessage remote st :
  count_suggestions
    (chatContainer (before_finally marked_parse userMessage remote st))
  = (pred (count_suggestions (chatContainer st))
     + match failure remote with
       | Some _ => 0
       | None => count_suggestions (chips_of (concat (chunks remote)))
       end)%nat.
Proof.
  assert (A : count_suggestions
                (chatContainer (after_stream marked_parse userMessage remote st))
              = pred (count_suggestions (chatContainer st))).
  { assert (P : count_suggestions
                  (chatContainer (snd (send_prologue userMessage st)))
                = pred (count_suggestions (chatContainer st))).
    { rewrite send_prologue_container, count_suggestions_remove.
      rewrite !count_suggestions_app, count_suggestions_update.
      rewrite count_suggestions_app. cbn. f_equal. lia. }
    unfold after_stream. destruct (chunks remote) as [|x cs].
    - rewrite with_logs_container. exact P.
    - change (count_suggestions
                (map (update_content (S (nextEl st))
                        (InnerHTML
                           (marked_parse (displayText (concat (x :: cs))))))
                   (chatContainer (snd (send_prologue userMessage st))))
              = pred (count_suggestions (chatContainer st))).
      rewrite count_suggestions_update. exact P. }
  unfold before_finally. destruct (failure remote) as [e|].
  - rewrite send_catch_container, count_suggestions_update, A. lia.
  - rewrite processAndDisplaySuggestions_container, count_suggestions_app, A.
    reflexivity.
Qed.

Lemma guard_passed userMessage st :
  is_empty userMessage || negb (is_some (chat st)) = false ->
  userMessage <> [] /\ exists c, chat st = Some c.
Proof.
  intros H. apply orb_false_elim in H as [Hm Hc]. split.
  - intros ->. discriminate Hm.
  - destruct (chat st) as [c|]; [exists c; reflexivity|discriminate Hc].
Qed.

(** X5.  The chat never holds two suggestion containers: when it holds at
    most one before a send, it holds at most one after it, for every
    message and whatever the provider does. *)
Theorem send_keeps_one_suggestion_container marked_parse userMessage remote st :
  (count_suggestions (chatContainer st) <= 1)%nat ->
  (count_suggestions
     (chatContainer
        (final_state
           (sendMessageAndStreamResponse marked_parse userMessage remote st)))
   <= 1)%nat.
Proof.
  intros H.
  destruct (is_empty userMessage || negb (is_some (chat st))) eqn:G.
  - unfold sendMessageAndStreamResponse. rewrite G. exact H.
  - apply guard_passed in G as (Hm & c & Hc).
    rewrite (send_anatomy marked_parse userMessage remote c st Hc Hm).
    cbn [final_state]. rewrite send_finally_container, before_finally_count.
    destruct (failure remote).
    + lia.
    + pose proof (count_suggestions_chips (concat (chunks remote))). lia.
Qed.

Lemma send_keeps_one_suggestion_container_witness :
  (count_suggestions
     (chatContainer
        (final_state
           (sendMessageAndStreamResponse (fun s => s) (lit "Pergunta")
              {| chunks := [scenario_full]; failure := None |}
              (final_state
                 (sendMessageAndStreamResponse (fun s => s) (lit "Pergunta")
                    {| chunks := [scenario_full]; failure := None |}
                    sample_ready)))))
   <= 1)%nat.
Proof.
  apply (send_keeps_one_suggestion_container (fun s => s) (lit "Pergunta")
           {| chunks := [scenario_full]; failure := None |}).
  vm_compute. lia.
Defined.

(** X6.  The chips of the previous turn never outlive the next one: after a
    send that passes its guard on a chat with at most one suggestion
    container, the only container left is the one of the new response, and
    there is none after a failure. *)
Theorem send_replaces_suggestions marked_parse userMessage remote c st :
  chat st = Some c -> userMessage <> [] ->
  (count_suggestions (chatContainer st) <= 1)%nat ->
  count_suggestions
    (chatContainer
       (final_state
          (sendMessageAndStreamResponse marked_parse userMessage remote st)))
  = match failure remote with
    | Some _ => 0%nat
    | None => count_suggestions (chips_of (concat (chunks remote)))
    end.
Proof.
  intros Hc Hm H.
  rewrite (send_anatomy marked_parse userMessage remote c st Hc Hm).
  cbn [final_state]. rewrite send_finally_container, before_finally_count.
  destruct (failure remote); lia.
Qed.

Lemma send_replaces_suggestions_witness :
  count_suggestions
    (chatContainer
       (final_state
          (sendMessageAndStreamResponse (fun s => s) (lit "Outra")
             {| chunks := [lit "Partial answer"];
                failure := Some (ErrorObject (lit "503")) |}
             (final_state
                (sendMessageAndStreamResponse (fun s => s) (lit "Pergunta")
                   {| chunks := [scenario_full]; failure := None |}
                   sample_ready)))))
  = 0%nat.
Proof.
  apply (send_replaces_suggestions (fun s => s) (lit "Outra")
           {| chunks := [lit "Partial answer"];
              failure := Some (ErrorObject (lit "503")) |}
           {| chat_apiKey := lit "key"; chat_model := MODEL;
              chat_instruction := lit "policy" |});
    [reflexivity|discriminate|vm_compute; lia].
Defined.

Lemma messages_remove ns : messages (remove_first_suggestions ns) = messages ns.
Proof.
  unfold messages. induction ns as [|n ns IH]; [reflexivity|].
  destruct n as [el sd c|chips];
    cbn [remove_first_suggestions filter is_message is_suggestions negb].
  - rewrite IH. reflexivity.
  - reflexivity.
Qed.

Lemma messages_chips t : messages (chips_of t) = [].
Proof.
  unfold chips_of. destruct (length (parseSuggestions t) =? 0)%nat; reflexivity.
Qed.

(** X7.  The message log is append-only: a send that passes its guard
    leaves every earlier bubble as it was, in the same order, and adds
    exactly the user bubble and the bot bubble of the turn. *)
Theorem send_appends_two_bubbles marked_parse userMessage remote c st :
  chat st = Some c -> userMessage <> [] -> fresh_els st = true ->
  messages
    (chatContainer
       (final_state
          (sendMessageAndStreamResponse marked_parse userMessage remote st)))
  = messages (chatContainer st)
    ++ [MessageNode (nextEl st) user (TextContent userMessage);
        MessageNode (S (nextEl st)) bot
          match failure remote with
          | Some e => InnerHTML (RETRY_PREFIX ++ errorMessage e ++ CODE_CLOSE)
          | None => bot_body marked_parse (chunks remote)
          end].
Proof.
  intros Hc Hm Hf.
  rewrite (send_container marked_parse userMessage remote c st Hc Hm Hf).
  unfold messages at 1. rewrite filter_app. fold (messages (remove_first_suggestions (chatContainer st))).
  rewrite messages_remove. f_equal.
  unfold turn_result. destruct (failure remote) as [e|]; [reflexivity|].
  rewrite filter_app. fold (messages (chips_of (concat (chunks remote)))).
  rewrite messages_chips. reflexivity.
Qed.

Lemma send_appends_two_bubbles_witness :
  messages
    (chatContainer
       (final_state
          (sendMessageAndStreamResponse (fun s => s) (lit "Pergunta")
             {| chunks := [scenario_full]; failure := None |} sample_ready)))
  = chatContainer sample_ready
    ++ [MessageNode 1 user (TextContent (lit "Pergunta"));
        MessageNode 2 bot (InnerHTML OLA)].
Proof.
  etransitivity.
  - apply (send_appends_two_bubbles (fun s => s) (lit "Pergunta")
             {| chunks := [scenario_full]; failure := None |}
             {| chat_apiKey := lit "key"; chat_model := MODEL;
                chat_instruction := lit "policy" |}
             sample_ready); [reflexivity|discriminate|reflexivity].
  - vm_compute. reflexivity.
Defined.

(** ** Start with a key, runs of sends, the submit handler *)

(** X8.  Started with a non-empty key, the application is ready: the
    session holds the key, the model name and the system instruction, the
    greeting bubble is appended to the chat, the controls stay as they
    were, and neither a remote call nor a console error is made. *)
Theorem init_with_key_ready marked_parse systemInstruction k st :
  k <> [] -> fresh_els st = true ->
  let r := initializeApp marked_parse systemInstruction (Some k) st in
  let st' := final_state r in
  r = Normal st' /\
  chat st' = Some {| chat_apiKey := k; chat_model := MODEL;
                     chat_instruction := systemInstruction |} /\
  chatContainer st'
  = chatContainer st
    ++ [MessageNode (nextEl st) bot (InnerHTML (marked_parse GREETING))] /\
  chatInput_disabled st' = chatInput_disabled st /\
  sendButton_disabled st' = sendButton_disabled st /\
  chatInput_placeholder st' = chatInput_placeholder st /\
  remoteCalls st' = remoteCalls st /\ console st' = console st.
Proof.
  intros Hk Hf r st'. subst st' r.
  destruct k as [|x k]; [congruence|].
  unfold initializeApp, try_catch_finally. cbn [is_empty final_state].
  split; [reflexivity|]. split; [reflexivity|].
  split; [|repeat split].
  change (map (update_content (nextEl st) (InnerHTML (marked_parse GREETING)))
            (chatContainer st ++ [MessageNode (nextEl st) bot Blank])
          = chatContainer st
            ++ [MessageNode (nextEl st) bot (InnerHTML (marked_parse GREETING))]).
  apply update_last, Hf.
Qed.

Lemma init_with_key_ready_witness :
  chat sample_ready
  = Some {| chat_apiKey := lit "key"; chat_model := lit "gemini-2.5-flash";
            chat_instruction := lit "policy" |} /\
  chatContainer sample_ready = [MessageNode 0 bot (InnerHTML GREETING)] /\
  chatInput_disabled sample_ready = false.
Proof.
  destruct (init_with_key_ready (fun s => s) (lit "policy") (lit "key")
              sample_page ltac:(discriminate) eq_refl)
    as (_ & C & L & D & _).
  split; [exact C|]. split; [exact L|exact D].
Defined.

Lemma send_step marked_parse userMessage remote c st :
  chat st = Some c ->
  exists st',
    sendMessageAndStreamResponse marked_parse userMessage remote st = Normal st' /\
    chat st' = Some c /\
    remoteCalls st'
    = remoteCalls st ++ (if is_empty userMessage then [] else [userMessage]).
Proof.
  intros Hc. destruct userMessage as [|x m].
  - exists st. rewrite send_guard by (left; reflexivity).
    cbn [is_empty]. rewrite app_nil_r. auto.
  - exists (send_finally (before_finally marked_parse (x :: m) remote st)).
    rewrite (send_anatomy marked_parse (x :: m) remote c st Hc)
      by discriminate.
    destruct (before_finally_frame marked_parse (x :: m) remote st)
      as (F & R & _).
    split; [reflexivity|]. split.
    + change (chat (before_finally marked_parse (x :: m) remote st) = Some c).
      unfold frame in F. congruence.
    + exact R.
Qed.

(** X9.  With a session, a run of send attempts never throws, keeps the
    session, and makes exactly one remote call per attempt with a non-empty
    message, in the order of the attempts, whatever the provider does with
    each call. *)
Theorem send_all_log marked_parse attempts c st :
  chat st = Some c ->
  let r := send_all marked_parse attempts st in
  completed r = true /\
  chat (final_state r) = Some c /\
  remoteCalls (final_state r) = remoteCalls st ++ sent_messages attempts.
Proof.
  revert st. induction attempts as [|[m rm] rest IH]; intros st Hc.
  - cbn. rewrite app_nil_r. auto.
  - cbn zeta. cbn [send_all].
    destruct (send_step marked_parse m rm c st Hc) as (st1 & E & Hc1 & R1).
    rewrite E. destruct (IH st1 Hc1) as (K & C & R).
    split; [exact K|]. split; [exact C|].
    rewrite R, R1, <- app_assoc. f_equal.
    unfold sent_messages. cbn [map fst filter].
    destruct (is_empty m); reflexivity.
Qed.

Lemma send_all_log_witness :
  remoteCalls
    (final_state
       (send_all (fun s => s)
          [(lit "Um", {| chunks := [lit "a"]; failure := None |});
           ([], {| chunks := [lit "b"]; failure := None |});
           (lit "Dois",
            {| chunks := []; failure := Some (OtherValue (lit "x")) |})]
          sample_ready))
  = [lit "Um"; lit "Dois"].
Proof.
  destruct (send_all_log (fun s => s)
              [(lit "Um", {| chunks := [lit "a"]; failure := None |});
               ([], {| chunks := [lit "b"]; failure := None |});
               (lit "Dois",
                {| chunks := []; failure := Some (OtherValue (lit "x")) |})]
              {| chat_apiKey := lit "key"; chat_model := MODEL;
                 chat_instruction := lit "policy" |}
              sample_ready eq_refl) as (_ & _ & R).
  exact R.
Defined.

Lemma trimStart_blank w : blank w = true -> trimStart w = [].
Proof.
  induction w as [|c w IH]; [reflexivity|]. cbn [blank forallb trimStart].
  intros H. apply andb_prop in H as [Hc Hw]. rewrite Hc. apply IH, Hw.
Qed.

Lemma trim_blank w : blank w = true -> trim w = [].
Proof. intros H. unfold trim. rewrite trimStart_blank by exact H. reflexivity. Qed.

(** X10.  A submission whose text is only white space is ignored: nothing
    is sent, no bubble is added and the form is not reset. *)
Theorem submit_blank_ignored marked_parse remote st :
  blank (chatInput_value st) = true ->
  handleFormSubmit marked_parse remote st = Normal st.
Proof.
  intros H. unfold handleFormSubmit. rewrite trim_blank by exact H. reflexivity.
Qed.

Lemma submit_blank_ignored_witness :
  handleFormSubmit (fun s => s) {| chunks := [lit "a"]; failure := None |}
    (with_input [32; 10; 9; 160] false [] false sample_ready)
  = Normal (with_input [32; 10; 9; 160] false [] false sample_ready).
Proof.
  apply (submit_blank_ignored (fun s => s)
           {| chunks := [lit "a"]; failure := None |}
           (with_input [32; 10; 9; 160] false [] false sample_ready)).
  reflexivity.
Defined.

(** X11.  A submission with a session and a text that is not blank sends
    the trimmed text: the form is reset to its default value, one remote
    call is made with the text without its surrounding white space, and the
    chat gets the turn for that trimmed text. *)
Theorem submit_sends_trimmed marked_parse remote c st :
  chat st = Some c -> trim (chatInput_value st) <> [] ->
  fresh_els st = true ->
  let st' := final_state (handleFormSubmit marked_parse remote st) in
  chatInput_value st' = chatInput_defaultValue st /\
  remoteCalls st' = remoteCalls st ++ [trim (chatInput_value st)] /\
  chatContainer st'
  = remove_first_suggestions (chatContainer st)
    ++ turn_result marked_parse (nextEl st) (trim (chatInput_value st)) remote.
Proof.
  intros Hc Hv Hf. cbv zeta. unfold handleFormSubmit.
  destruct (trim (chatInput_value st)) as [|x m] eqn:E; [congruence|].
  cbn [is_empty].
  set (st1 := with_input (chatInput_defaultValue st) (chatInput_disabled st)
                (chatInput_placeholder st) (chatInput_focused st) st).
  assert (Hc1 : chat st1 = Some c) by exact Hc.
  assert (Hf1 : fresh_els st1 = true) by exact Hf.
  split; [|split].
  - rewrite (send_anatomy marked_parse (x :: m) remote c st1 Hc1)
      by discriminate.
    cbn [final_state].
    destruct (before_finally_frame marked_parse (x :: m) remote st1)
      as (F & _ & _).
    change (chatInput_value (before_finally marked_parse (x :: m) remote st1)
            = chatInput_value st1).
    unfold frame in F. congruence.
  - rewrite (send_anatomy marked_parse (x :: m) remote c st1 Hc1)
      by discriminate.
    cbn [final_state].
    destruct (before_finally_frame marked_parse (x :: m) remote st1)
      as (_ & R & _).
    exact R.
  - apply (send_container marked_parse (x :: m) remote c st1 Hc1);
      [discriminate|exact Hf1].
Qed.

Lemma submit_sends_trimmed_witness :
  remoteCalls
    (final_state
       (handleFormSubmit (fun s => s)
          {| chunks := [lit "a"]; failure := None |}
          (with_input (lit "  Pergunta ") false [] false sample_ready)))
  = [lit "Pergunta"] /\
  chatInput_value
    (final_state
       (handleFormSubmit (fun s => s)
          {| chunks := [lit "a"]; failure := None |}
          (with_input (lit "  Pergunta ") false [] false sample_ready)))
  = [].
Proof.
  destruct (submit_sends_trimmed (fun s => s)
              {| chunks := [lit "a"]; failure := None |}
              {| chat_apiKey := lit "key"; chat_model := MODEL;
                 chat_instruction := lit "policy" |}
              (with_input (lit "  Pergunta ") false [] false sample_ready)
              eq_refl ltac:(vm_compute; discriminate) eq_refl)
    as (V & R & _).
  split; [exact R|exact V].
Defined.

(** * Further properties of the parser and of the display text *)

Lemma lazy_dot_sound s c :
  lazy_dot_until_quote s = Some c ->
  (exists b, s = c ++ DQUOTE :: b) /\
  has DQUOTE c = false /\ existsb is_line_terminator c = false.
Proof.
  revert c. induction s as [|x s IH]; intros c H; [discriminate H|].
  cbn [lazy_dot_until_quote] in H. destruct (x =? DQUOTE) eqn:Ex.
  - injection H as <-. apply N.eqb_eq in Ex. subst x.
    split; [exists s; reflexivity|split; reflexivity].
  - destruct (is_line_terminator x) eqn:El; [discriminate H|].
    destruct (lazy_dot_until_quote s) as [c'|]; [|discriminate H].
    injection H as <-. destruct (IH c' eq_refl) as ((b & Eb) & Hq & Hl).
    split; [exists b; rewrite Eb; reflexivity|].
    unfold has in *. cbn [existsb]. rewrite N.eqb_sym, Ex, El, Hq, Hl.
    split; reflexivity.
Qed.

Lemma exec_quoted_sound s c :
  exec_quoted s = Some c ->
  (exists a b, s = a ++ DQUOTE :: c ++ DQUOTE :: b) /\
  has DQUOTE c = false /\ existsb is_line_terminator c = false.
Proof.
  induction s as [|x s IH]; intros H; [discriminate H|].
  cbn [exec_quoted] in H. destruct (quoted_at (x :: s)) as [c'|] eqn:E.
  - injection H as <-. cbn [quoted_at] in E.
    destruct (x =? DQUOTE) eqn:Ex; [|discriminate E].
    apply N.eqb_eq in Ex. subst x.
    destruct (lazy_dot_sound s c' E) as ((b & Eb) & Hq & Hl).
    split; [exists [], b; rewrite Eb; reflexivity|split; assumption].
  - destruct (IH H) as ((a & b & Eab) & Hq & Hl).
    split; [exists (x :: a), b; rewrite Eab; reflexivity|split; assumption].
Qed.

Lemma captures_in_some c ms : In c (captures ms) -> In (Some c) ms.
Proof.
  unfold captures. intros H. apply in_map_iff in H as (m & E & Hm).
  apply filter_In in Hm as [Hm Hs]. destruct m as [c'|]; [|discriminate Hs].
  subst c'. exact Hm.
Qed.

Lemma split_lf_head s l0 ls : split_lf s = l0 :: ls -> exists b, s = l0 ++ b.
Proof.
  revert l0 ls. induction s as [|x s IH]; intros l0 ls H.
  - injection H as <- _. exists []. reflexivity.
  - cbn [split_lf] in H. destruct (x =? LF).
    + injection H as <- _. exists (x :: s). reflexivity.
    + destruct (split_lf s) as [|l1 ls1].
      * injection H as <- _. exists s. reflexivity.
      * injection H as <- _. destruct (IH l1 ls1 eq_refl) as (b & ->).
        exists b. reflexivity.
Qed.

(** Every piece of [split] is a part of the text. *)
Lemma split_lf_substring l s :
  In l (split_lf s) -> exists a b, s = a ++ l ++ b.
Proof.
  revert l. induction s as [|x s IH]; intros l H.
  - destruct H as [<-|[]]. exists [], []. reflexivity.
  - cbn [split_lf] in H. destruct (x =? LF).
    + destruct H as [<-|H].
      * exists [], (x :: s). reflexivity.
      * destruct (IH l H) as (a & b & ->). exists (x :: a), b. reflexivity.
    + destruct (split_lf s) as [|l0 ls] eqn:E.
      * destruct H as [<-|[]]. exists [], s. reflexivity.
      * destruct H as [<-|H].
        -- destruct (split_lf_head s l0 ls E) as (b & ->).
           exists [], b. reflexivity.
        -- destruct (IH l (or_intror H)) as (a & b & ->).
           exists (x :: a), b. reflexivity.
Qed.

(** X12.  Every suggestion the parser returns is read from the response:
    it stands between two double quotes inside the text between a start
    marker and an end marker, and it holds neither a double quote nor a
    line terminator. *)
Theorem parser_suggestions_are_quoted fullResponse c :
  In c (parseSuggestions fullResponse) ->
  (exists pre a b post,
     fullResponse
     = pre ++ START_MARKER ++ (a ++ DQUOTE :: c ++ DQUOTE :: b)
       ++ END_MARKER ++ post) /\
  has DQUOTE c = false /\ existsb is_line_terminator c = false.
Proof.
  unfold parseSuggestions.
  destruct (exec_block fullResponse) as [[[pre m1] post]|] eqn:E; [|intros []].
  apply exec_block_sound in E.
  destruct (is_empty m1); [intros []|].
  unfold block_suggestions. intros H. apply captures_in_some in H.
  apply in_map_iff in H as (l & Hl & Hin).
  destruct (exec_quoted_sound _ _ Hl) as ((a & b & Et) & Hq & Ht).
  destruct (split_lf_substring _ _ Hin) as (a1 & b1 & E1).
  destruct (trim_decomp l) as (u1 & u2 & _ & _ & El).
  destruct (trim_decomp m1) as (v1 & v2 & _ & _ & Em).
  split; [|split; assumption].
  exists pre, (v1 ++ a1 ++ u1 ++ a), (b ++ u2 ++ b1 ++ v2), post.
  rewrite E. do 2 f_equal. rewrite Em, E1, El, Et.
  repeat (rewrite <- ?app_assoc; cbn [app]). reflexivity.
Qed.

Lemma parser_suggestions_are_quoted_witness :
  has DQUOTE (lit "Pergunta 2?") = false /\
  existsb is_line_terminator (lit "Pergunta 2?") = false.
Proof.
  apply (parser_suggestions_are_quoted scenario_full (lit "Pergunta 2?")).
  vm_compute. right. left. reflexivity.
Defined.

Lemma trimStart_head s c t : trimStart s = c :: t -> is_ws c = false.
Proof.
  induction s as [|x s IH]; [discriminate|]. cbn [trimStart].
  destruct (is_ws x) eqn:E; [exact IH|]. intros H. injection H as <- _. exact E.
Qed.

Lemma trim_head s c t : trim s = c :: t -> is_ws c = false.
Proof.
  intros H. destruct (trimEnd_decomp (trimStart s)) as (w & _ & E).
  fold (trim s) in E. rewrite H in E. apply (trimStart_head s c (t ++ w)).
  exact E.
Qed.

Lemma trim_last s t c : trim s = t ++ [c] -> is_ws c = false.
Proof.
  unfold trim, trimEnd. intros H.
  apply (f_equal (@rev N)) in H. rewrite rev_involutive, rev_app_distr in H.
  cbn [rev app] in H. apply trimStart_head in H. exact H.
Qed.

(** X13.  The text computed for display never begins or ends with white
    space or a line terminator. *)
Theorem displayText_trimmed bufferedText :
  (forall c t, displayText bufferedText = c :: t -> is_ws c = false) /\
  (forall t c, displayText bufferedText = t ++ [c] -> is_ws c = false).
Proof.
  unfold displayText. split.
  - intros c t. apply trim_head.
  - intros t c. apply trim_last.
Qed.

Lemma strip_prefix_before_blank p t w r :
  forallb (fun x => negb (is_ws x)) p = true -> blank w = true ->
  strip_prefix p (t ++ w) = Some r -> exists r', strip_prefix p t = Some r'.
Proof.
  revert t. induction p as [|x p IH]; intros t Hp Hw H.
  - exists t. reflexivity.
  - cbn [forallb] in Hp. apply andb_prop in Hp as [Hx Hp].
    apply negb_true_iff in Hx. destruct t as [|y t].
    + exfalso. destruct w as [|y w]; [discriminate H|].
      cbn [app strip_prefix] in H. destruct (x =? y) eqn:E; [|discriminate H].
      apply N.eqb_eq in E. subst y. cbn [blank forallb] in Hw.
      rewrite Hx in Hw. discriminate Hw.
    + cbn [app strip_prefix] in H |- *. destruct (x =? y); [|discriminate H].
      apply (IH t Hp Hw H).
Qed.

Lemma includes_cons_true p c s : includes p s = true -> includes p (c :: s) = true.
Proof.
  intros H. cbn [includes]. destruct (strip_prefix p (c :: s)); [reflexivity|].
  exact H.
Qed.

(** A non-empty literal without white space that occurs in a text occurs in
    the trimmed text. *)
Lemma includes_trim p s :
  p <> [] -> forallb (fun x => negb (is_ws x)) p = true ->
  includes p s = true -> includes p (trim s) = true.
Proof.
  intros Hne Hp H.
  destruct (trim_decomp s) as (w1 & w2 & H1 & H2 & E).
  rewrite E in H. clear E. revert H. generalize (trim s). intros t H.
  assert (A : includes p (t ++ w2) = true).
  { clear H2. induction w1 as [|c w1 IH]; [exact H|].
    cbn [blank forallb] in H1. apply andb_prop in H1 as [Hc H1].
    apply IH; [exact H1|]. cbn [app includes] in H.
    destruct (strip_prefix p (c :: w1 ++ t ++ w2)) as [r|] eqn:Er; [|exact H].
    exfalso. destruct p as [|x p]; [congruence|].
    cbn [strip_prefix] in Er. destruct (x =? c) eqn:Ex; [|discriminate Er].
    apply N.eqb_eq in Ex. subst c. cbn [forallb] in Hp.
    rewrite Hc in Hp. discriminate Hp. }
  clear H H1 w1. induction t as [|c t IH].
  - exfalso. cbn [app] in A. induction w2 as [|c w2 IH]; cbn [includes] in A.
    + destruct p; [congruence|discriminate A].
    + cbn [blank forallb] in H2. apply andb_prop in H2 as [Hc H2].
      destruct (strip_prefix p (c :: w2)) as [r|] eqn:Er; [|exact (IH H2 A)].
      destruct p as [|x p]; [congruence|].
      cbn [strip_prefix] in Er. destruct (x =? c) eqn:Ex; [|discriminate Er].
      apply N.eqb_eq in Ex. subst c. cbn [forallb] in Hp.
      rewrite Hc in Hp. discriminate Hp.
  - cbn [app includes] in A.
    destruct (strip_prefix p (c :: t ++ w2)) as [r|] eqn:Er.
    + destruct (strip_prefix_before_blank p (c :: t) w2 r Hp H2 Er) as (r' & Er').
      apply includes_prefix with (r := r'). exact Er'.
    + apply includes_cons_true, IH, A.
Qed.

(** X14.  While a block is open, nothing is hidden: for a buffer made of
    text without a start marker, a start marker, and text without an end
    marker, the display text is the whole buffer, trimmed, and the start
    marker is in it. *)
Theorem unclosed_block_is_displayed P B :
  includes START_MARKER P = false -> includes END_MARKER B = false ->
  displayText (P ++ START_MARKER ++ B) = trim (P ++ START_MARKER ++ B) /\
  includes START_MARKER (displayText (P ++ START_MARKER ++ B)) = true.
Proof.
  intros HP HB.
  assert (E : displayText (P ++ START_MARKER ++ B)
              = trim (P ++ START_MARKER ++ B)).
  { unfold displayText. rewrite replace_blocks_eq.
    rewrite exec_block_reversed by assumption. reflexivity. }
  split; [exact E|]. rewrite E. apply includes_trim.
  - discriminate.
  - reflexivity.
  - apply includes_app_middle.
Qed.

Lemma unclosed_block_is_displayed_witness :
  displayText scenario_midstream = scenario_midstream /\
  includes START_MARKER (displayText scenario_midstream) = true.
Proof.
  destruct (unclosed_block_is_displayed (OLA ++ [LF])
              ([LF; DQUOTE] ++ lit "Pergunta 1?" ++ [DQUOTE])
              eq_refl eq_refl) as (E & I).
  split.
  - etransitivity; [|vm_compute; reflexivity].
    etransitivity; [|exact E]. vm_compute. reflexivity.
  - etransitivity; [|exact I]. vm_compute. reflexivity.
Defined.

(** X15.  A stream that ends normally without a single chunk leaves the bot
    bubble empty and adds no suggestion container: the turn is the user
    bubble followed by a blank bot bubble. *)
Theorem empty_stream_leaves_blank_bubble marked_parse userMessage c st :
  chat st = Some c -> userMessage <> [] -> fresh_els st = true ->
  chatContainer
    (final_state
       (sendMessageAndStreamResponse marked_parse userMessage
          {| chunks := []; failure := None |} st))
  = remove_first_suggestions (chatContainer st)
    ++ [MessageNode (nextEl st) user (TextContent userMessage);
        MessageNode (S (nextEl st)) bot Blank].
Proof.
  intros Hc Hm Hf.
  rewrite (send_container marked_parse userMessage _ c st Hc Hm Hf).
  reflexivity.
Qed.

Lemma empty_stream_leaves_blank_bubble_witness :
  chatContainer
    (final_state
       (sendMessageAndStreamResponse (fun s => s) (lit "Pergunta")
          {| chunks := []; failure := None |} sample_ready))
  = chatContainer sample_ready
    ++ [MessageNode 1 user (TextContent (lit "Pergunta"));
        MessageNode 2 bot Blank].
Proof.
  apply (empty_stream_leaves_blank_bubble (fun s => s) (lit "Pergunta")
           {| chat_apiKey := lit "key"; chat_model := MODEL;
              chat_instruction := lit "policy" |} sample_ready);
    [reflexivity|discriminate|reflexivity].
Defined.

(** X16.  A submission of text that is not blank while no session exists
    resets the form and does nothing else: the typed text is discarded, no
    bubble is added and no remote call is made. *)
Theorem submit_without_session_resets_form marked_parse remote st :
  chat st = None -> trim (chatInput_value st) <> [] ->
  let st' := final_state (handleFormSubmit marked_parse remote st) in
  chatInput_value st' = chatInput_defaultValue st /\
  chatContainer st' = chatContainer st /\
  remoteCalls st' = remoteCalls st /\
  chatInput_disabled st' = chatInput_disabled st /\
  sendButton_disabled st' = sendButton_disabled st.
Proof.
  intros Hc Hv. cbv zeta.
  rewrite (handleFormSubmit_without_session marked_parse remote st Hc Hv).
  repeat split.
Qed.

Lemma submit_without_session_resets_form_witness :
  chatInput_value
    (final_state
       (handleFormSubmit (fun s => s)
          {| chunks := [lit "a"]; failure := None |}
          (with_input (lit "Pergunta") true [] false sample_disabled)))
  = [] /\
  remoteCalls
    (final_state
       (handleFormSubmit (fun s => s)
          {| chunks := [lit "a"]; failure := None |}
          (with_input (lit "Pergunta") true [] false sample_disabled)))
  = [].
Proof.
  destruct (submit_without_session_resets_form (fun s => s)
              {| chunks := [lit "a"]; failure := None |}
              (with_input (lit "Pergunta") true [] false sample_disabled)
              eq_refl ltac:(vm_compute; discriminate))
    as (V & _ & R & _).
  split; [exact V|exact R].
Defined.
